(** * handgover: filling a struct from tagged sources

    A shallow embedding of the Go package [handgover] (files [handover.go]
    and [errors.go]) together with the parts of the Go standard library the
    package calls, and the properties of the package proved over it.

    - Go strings are byte strings: [string] (a list of 8-bit [ascii]).
    - Fixed-width integers are [Z] with the wrap-around written out.
    - [reflect.New] allocates in an explicit heap (a list of cells addressed
      by index), so that freshness of an allocation can be stated.
    - A settable [reflect.Value] is a place; a setter takes the content the
      place had and returns the content it has afterwards.
    - Parsers of the standard library that are black boxes for this package
      (floats, RFC 3339 timestamps, JSON) are fields of the class [GoLib]. *)

From Stdlib Require Import ZArith String Ascii List Bool Lia.
From Equations Require Import Equations.
From stdpp Require Import base list.
Import ListNotations.

Local Open Scope string_scope.
Local Open Scope Z_scope.

Set Warnings "-register-all".

(** ** Bytes and strings *)

Definition byteOf (c : ascii) : Z := Z.of_N (N_of_ascii c).

Definition byteChr (n : Z) : ascii := ascii_of_N (Z.to_N n).

Definition dquote : string := String (byteChr 34) EmptyString.

(** [strconv.Quote] on the strings used here (no escapes needed). *)
Definition quote (s : string) : string := dquote ++ s ++ dquote.

Definition wrap64 (n : Z) : Z := n mod 2 ^ 64.

Definition maxUint64 : Z := 2 ^ 64 - 1.

(** ** Errors

    The dynamic types of [error] values that the package tells apart in
    [newError], and the ones the standard library produces. *)

Inductive strconvErr :=
| ErrSyntax
| ErrRange
| ErrBitSize (bitSize : Z).

Inductive error :=
| NumError (Func Num : string) (Err : strconvErr)
| ParseError (Layout Value LayoutElem ValueElem Message : string)
| UnsupportedValueError (Str : string)
| SyntaxError (msg : string) (Offset : Z)
| errorString (s : string)
| otherError (s : string).

(** [errors.go]: the structured error. *)
Record Error := mkError {
  Field : string;
  Source_ : string;
  Value_ : string;
  InnerError : error
}.

(** What [Sources.To] returns through its [error] result: [nil], the plain
    error of the nil check, or an [Error]. *)
Inductive toError :=
| plainError (e : error)
| structError (e : Error).

(** ** Package strconv (base 10) *)

Definition syntaxError (fn str : string) : error := NumError fn str ErrSyntax.

Definition rangeError (fn str : string) : error := NumError fn str ErrRange.

Definition bitSizeError (fn str : string) (bitSize : Z) : error :=
  NumError fn str (ErrBitSize bitSize).

Definition isDigit (c : ascii) : bool :=
  (48 <=? byteOf c) && (byteOf c <=? 57).

(** The loop of [strconv.ParseUint] for base 10: every byte that is not a
    decimal digit is a syntax error; overflow of the [uint64] accumulator
    or of [maxVal] is a range error, reported as soon as it is seen. *)
Fixpoint parseUintLoop (maxVal : Z) (s : string) (n : Z) : Z + strconvErr :=
  match s with
  | EmptyString => inl n
  | String c s' =>
      if isDigit c then
        let d := byteOf c - 48 in
        if maxUint64 / 10 + 1 <=? n then inr ErrRange
        else
          let n10 := wrap64 (n * 10) in
          let n1 := wrap64 (n10 + d) in
          if (n1 <? n10) || (maxVal <? n1) then inr ErrRange
          else parseUintLoop maxVal s' n1
      else inr ErrSyntax
  end.

(** [strconv.ParseUint(s, 10, bitSize)]; [intSize] is [strconv.IntSize].
    The value is returned next to the error, as in Go. *)
Definition ParseUint (intSize : Z) (s : string) (bitSize : Z) : Z * option error :=
  let fnParseUint := "ParseUint" in
  match s with
  | EmptyString => (0, Some (syntaxError fnParseUint s))
  | _ =>
      if (bitSize <? 0) || (64 <? bitSize) then
        (0, Some (bitSizeError fnParseUint s bitSize))
      else
        let bitSize := if bitSize =? 0 then intSize else bitSize in
        let maxVal := wrap64 (wrap64 (2 ^ bitSize) - 1) in
        match parseUintLoop maxVal s 0 with
        | inl n => (n, None)
        | inr ErrRange => (maxVal, Some (rangeError fnParseUint s))
        | inr _ => (0, Some (syntaxError fnParseUint s))
        end
  end.

Definition numErrorErr (e : error) : strconvErr :=
  match e with
  | NumError _ _ k => k
  | _ => ErrSyntax
  end.

(** [strconv.ParseInt(s, 10, bitSize)]. *)
Definition ParseInt (intSize : Z) (s : string) (bitSize : Z) : Z * option error :=
  let fnParseInt := "ParseInt" in
  match s with
  | EmptyString => (0, Some (syntaxError fnParseInt s))
  | String c rest =>
      let s0 := s in
      let neg := Ascii.eqb c "-" in
      let s := if Ascii.eqb c "+" || Ascii.eqb c "-" then rest else s in
      let '(un, err) := ParseUint intSize s bitSize in
      match err with
      | Some (NumError _ _ ErrRange) | None =>
          let bitSize := if bitSize =? 0 then intSize else bitSize in
          let cutoff := wrap64 (2 ^ (bitSize - 1)) in
          if negb neg && (cutoff <=? un) then (cutoff - 1, Some (rangeError fnParseInt s0))
          else if neg && (cutoff <? un) then (- cutoff, Some (rangeError fnParseInt s0))
          else (if neg then - un else un, None)
      | Some e => (0, Some (NumError fnParseInt s0 (numErrorErr e)))
      end
  end.

(** [strconv.ParseBool]. *)
Definition ParseBool (str : string) : bool * option error :=
  if existsb (String.eqb str) ["1"; "t"; "T"; "true"; "TRUE"; "True"] then (true, None)
  else if existsb (String.eqb str) ["0"; "f"; "F"; "false"; "FALSE"; "False"] then (false, None)
  else (false, Some (syntaxError "ParseBool" str)).

(** [strconv.FormatUint(i, 10)]: the decimal digits of [i], most
    significant first. *)
Equations? FormatUint (i : Z) : string by wf (Z.to_nat (Z.log2 i)) lt :=
  FormatUint i with Z_lt_dec i 10 => {
    | left _ := String (byteChr (48 + i)) EmptyString;
    | right _ := FormatUint (i / 10) ++ String (byteChr (48 + i mod 10)) EmptyString }.
Proof.
  apply Z2Nat.inj_lt; try apply Z.log2_nonneg.
  assert (H2 : i / 10 <= i / 2) by (apply Z.div_le_compat_l; lia).
  apply Z.log2_le_mono in H2.
  rewrite <- Z.div2_div, Z.div2_spec, Z.log2_shiftr in H2 by lia.
  assert (0 < Z.log2 i) by (apply Z.log2_pos; lia). lia.
Qed.

(** [strconv.FormatInt(i, 10)]. *)
Definition FormatInt (i : Z) : string :=
  if i <? 0 then String "-" (FormatUint (- i)) else FormatUint i.

(** ** Packages unicode/utf8 and strings *)

Definition inRange (lo hi : Z) (c : ascii) : bool :=
  (lo <=? byteOf c) && (byteOf c <=? hi).

(** The size returned by [utf8.DecodeRuneInString]: the length of the
    UTF-8 sequence at the head of [s], 1 for an invalid or short one. *)
Definition runeSize (s : string) : nat :=
  match s with
  | EmptyString => 0%nat
  | String c0 rest =>
      let b0 := byteOf c0 in
      if b0 <? 128 then 1%nat
      else if (194 <=? b0) && (b0 <=? 223) then
        match rest with
        | String c1 _ => if inRange 128 191 c1 then 2%nat else 1%nat
        | _ => 1%nat
        end
      else if (224 <=? b0) && (b0 <=? 239) then
        let lo := if b0 =? 224 then 160 else 128 in
        let hi := if b0 =? 237 then 159 else 191 in
        match rest with
        | String c1 (String c2 _) =>
            if inRange lo hi c1 && inRange 128 191 c2 then 3%nat else 1%nat
        | _ => 1%nat
        end
      else if (240 <=? b0) && (b0 <=? 244) then
        let lo := if b0 =? 240 then 144 else 128 in
        let hi := if b0 =? 244 then 143 else 191 in
        match rest with
        | String c1 (String c2 (String c3 _)) =>
            if inRange lo hi c1 && inRange 128 191 c2 && inRange 128 191 c3
            then 4%nat else 1%nat
        | _ => 1%nat
        end
      else 1%nat
  end.

Fixpoint takeStr (n : nat) (s : string) : string :=
  match n, s with
  | S n', String c s' => String c (takeStr n' s')
  | _, _ => EmptyString
  end.

Fixpoint dropStr (n : nat) (s : string) : string :=
  match n, s with
  | S n', String _ s' => dropStr n' s'
  | _, _ => s
  end.

(** [utf8.RuneCountInString]: [skip] counts the bytes still belonging to
    the sequence whose first byte was counted. *)
Fixpoint runeCountFrom (skip : nat) (s : string) : nat :=
  match s with
  | EmptyString => 0%nat
  | String _ s' =>
      match skip with
      | S k => runeCountFrom k s'
      | O => S (runeCountFrom (runeSize s - 1) s')
      end
  end.

Definition RuneCountInString (s : string) : nat := runeCountFrom 0 s.

(** The loop of [strings.explode]: [k] sequences are cut off the front of
    [s], the last element is what remains. *)
Fixpoint explodeLoop (k : nat) (s : string) : list string :=
  match k with
  | O => [s]
  | S k' => takeStr (runeSize s) s :: explodeLoop k' (dropStr (runeSize s) s)
  end.

(** [strings.explode(s, -1)]. *)
Definition explode (s : string) : list string :=
  match RuneCountInString s with
  | O => []
  | S k => explodeLoop k s
  end.

(** [strings.Split] with the empty separator, the only one this package
    uses. *)
Definition Split (s : string) : list string := explode s.

(** [strings.Join(elems, sep)]. *)
Fixpoint Join (elems : list string) (sep : string) : string :=
  match elems with
  | [] => EmptyString
  | [e] => e
  | e :: rest => e ++ sep ++ Join rest sep
  end.

(** ** Package time: [ParseDuration] *)

Definition int64 (n : Z) : Z := (n + 2 ^ 63) mod 2 ^ 64 - 2 ^ 63.

(** [time.leadingInt]: [None] is [errLeadingInt]. *)
Fixpoint leadingInt (s : string) (x : Z) : option (Z * string) :=
  match s with
  | EmptyString => Some (x, s)
  | String c s' =>
      if isDigit c then
        if 2 ^ 63 / 10 <? x then None
        else
          let x := wrap64 (x * 10 + byteOf c - 48) in
          if 2 ^ 63 <? x then None else leadingInt s' x
      else Some (x, s)
  end.

(** [time.leadingFraction]: the float [scale] is 10 multiplied [k] times,
    so [k] is returned in its place. *)
Fixpoint leadingFraction (s : string) (x : Z) (k : nat) (overflow : bool)
  : Z * nat * string :=
  match s with
  | EmptyString => (x, k, s)
  | String c s' =>
      if isDigit c then
        if overflow then leadingFraction s' x k overflow
        else if (2 ^ 63 - 1) / 10 <? x then leadingFraction s' x k true
        else
          let y := wrap64 (x * 10 + byteOf c - 48) in
          if 2 ^ 63 <? y then leadingFraction s' x k true
          else leadingFraction s' y (S k) false
      else (x, k, s)
  end.

Definition isDotOrDigit (c : ascii) : bool := Ascii.eqb c "." || isDigit c.

(** The unit: the bytes up to the next ['.'] or digit. *)
Fixpoint spanUnit (s : string) : string * string :=
  match s with
  | EmptyString => (EmptyString, s)
  | String c s' =>
      if isDotOrDigit c then (EmptyString, s)
      else let '(u, r) := spanUnit s' in (String c u, r)
  end.

Definition microSignUs : string := String (byteChr 194) (String (byteChr 181) "s").

Definition greekMuUs : string := String (byteChr 206) (String (byteChr 188) "s").

Definition unitMap : list (string * Z) :=
  [ ("ns", 1); ("us", 1000); (microSignUs, 1000); (greekMuUs, 1000);
    ("ms", 1000000); ("s", 1000000000); ("m", 60000000000);
    ("h", 3600000000000) ].

Fixpoint assoc {A : Type} (k : string) (l : list (string * A)) : option A :=
  match l with
  | [] => None
  | (k', v) :: l' => if String.eqb k k' then Some v else assoc k l'
  end.

Definition invalidDuration (orig : string) : error :=
  errorString ("time: invalid duration " ++ quote orig).

Definition strLen (s : string) : Z := Z.of_nat (String.length s).

(** The loop over the non-empty [s] of [time.ParseDuration]. [fracNanos f k unit]
    is the float64 expression
    [uint64(float64(f) * (float64(unit) / scale))]. Every turn consumes
    at least one byte, so [fuel] equal to the length of [s] is enough
    (lemma [parseDurationLoop_fuel]). *)
Fixpoint parseDurationLoop (fracNanos : Z -> nat -> Z -> Z) (fuel : nat)
  (orig s : string) (d : Z) : Z + error :=
  match s, fuel with
  | EmptyString, _ => inl d
  | String c _, O => inr (invalidDuration orig)
  | String c _, S fuel' =>
      if negb (isDotOrDigit c) then inr (invalidDuration orig)
      else
        match leadingInt s 0 with
        | None => inr (invalidDuration orig)
        | Some (v, s1) =>
            let pre := negb (strLen s =? strLen s1) in
            let '(f, k, s2, post) :=
              match s1 with
              | String "." s1' =>
                  let '(f, k, r) := leadingFraction s1' 0 0%nat false in
                  (f, k, r, negb (strLen s1' =? strLen r))
              | _ => (0, 0%nat, s1, false)
              end in
            if negb pre && negb post then inr (invalidDuration orig)
            else
              let '(u, s3) := spanUnit s2 in
              match u with
              | EmptyString =>
                  inr (errorString ("time: missing unit in duration " ++ quote orig))
              | _ =>
                  match assoc u unitMap with
                  | None =>
                      inr (errorString ("time: unknown unit " ++ quote u
                                        ++ " in duration " ++ quote orig))
                  | Some unit =>
                      if 2 ^ 63 / unit <? v then inr (invalidDuration orig)
                      else
                        let v := wrap64 (v * unit) in
                        let v := if 0 <? f then wrap64 (v + fracNanos f k unit) else v in
                        if (0 <? f) && (2 ^ 63 <? v) then inr (invalidDuration orig)
                        else
                          let d := wrap64 (d + v) in
                          if 2 ^ 63 <? d then inr (invalidDuration orig)
                          else parseDurationLoop fracNanos fuel' orig s3 d
                  end
              end
        end
  end.

(** [time.ParseDuration]. *)
Definition ParseDuration (fracNanos : Z -> nat -> Z -> Z) (s : string)
  : Z * option error :=
  let orig := s in
  let neg := match s with String "-" _ => true | _ => false end in
  let s := match s with
           | String "-" r | String "+" r => r
           | _ => s
           end in
  if String.eqb s "0" then (0, None)
  else
    match s with
    | EmptyString => (0, Some (invalidDuration orig))
    | _ =>
        match parseDurationLoop fracNanos (String.length s) orig s 0 with
        | inr e => (0, Some e)
        | inl d =>
            if neg then (int64 (- int64 d), None)
            else if 2 ^ 63 - 1 <? d then (0, Some (invalidDuration orig))
            else (int64 d, None)
        end
    end.

(** ** Package reflect: kinds, types and values *)

Module reflect.

Inductive Kind :=
| Invalid | Bool | Int | Int8 | Int16 | Int32 | Int64
| Uint | Uint8 | Uint16 | Uint32 | Uint64 | Uintptr
| Float32 | Float64 | Complex64 | Complex128
| Array | Chan | Func | Interface | Map | Ptr | Slice | String | Struct
| UnsafePointer.

End reflect.

Inductive intKind := KInt | KInt8 | KInt16 | KInt32 | KInt64.

Inductive uintKind := KUint | KUint8 | KUint16 | KUint32 | KUint64.

Inductive floatKind := KFloat32 | KFloat64.

(** The kinds [setValue] has no case for. *)
Inductive otherKind :=
| KUintptr | KComplex64 | KComplex128 | KArray | KChan | KFunc
| KInterface | KMap | KUnsafePointer.

(** The types a field can have. [TDuration] is [time.Duration] (of kind
    [Int64]), [TTime] is [time.Time] and [TStruct name] any other struct
    type (both of kind [Struct]); a named type with another underlying
    type behaves as that type. *)
Inductive rtype :=
| TBool
| TString
| TInt (k : intKind)
| TUint (k : uintKind)
| TFloat (k : floatKind)
| TDuration
| TTime
| TStruct (name : string)
| TPtr (elem : rtype)
| TSlice (elem : rtype)
| TOther (k : otherKind).

(** [reflect.Type.Kind]. *)
Definition Kind (t : rtype) : reflect.Kind :=
  match t with
  | TBool => reflect.Bool
  | TString => reflect.String
  | TInt KInt => reflect.Int
  | TInt KInt8 => reflect.Int8
  | TInt KInt16 => reflect.Int16
  | TInt KInt32 => reflect.Int32
  | TInt KInt64 => reflect.Int64
  | TUint KUint => reflect.Uint
  | TUint KUint8 => reflect.Uint8
  | TUint KUint16 => reflect.Uint16
  | TUint KUint32 => reflect.Uint32
  | TUint KUint64 => reflect.Uint64
  | TFloat KFloat32 => reflect.Float32
  | TFloat KFloat64 => reflect.Float64
  | TDuration => reflect.Int64
  | TTime => reflect.Struct
  | TStruct _ => reflect.Struct
  | TPtr _ => reflect.Ptr
  | TSlice _ => reflect.Slice
  | TOther KUintptr => reflect.Uintptr
  | TOther KComplex64 => reflect.Complex64
  | TOther KComplex128 => reflect.Complex128
  | TOther KArray => reflect.Array
  | TOther KChan => reflect.Chan
  | TOther KFunc => reflect.Func
  | TOther KInterface => reflect.Interface
  | TOther KMap => reflect.Map
  | TOther KUnsafePointer => reflect.UnsafePointer
  end.

(** [Kind.String]. *)
Definition kindName (k : reflect.Kind) : string :=
  match k with
  | reflect.Invalid => "invalid" | reflect.Bool => "bool"
  | reflect.Int => "int" | reflect.Int8 => "int8" | reflect.Int16 => "int16"
  | reflect.Int32 => "int32" | reflect.Int64 => "int64"
  | reflect.Uint => "uint" | reflect.Uint8 => "uint8"
  | reflect.Uint16 => "uint16" | reflect.Uint32 => "uint32"
  | reflect.Uint64 => "uint64" | reflect.Uintptr => "uintptr"
  | reflect.Float32 => "float32" | reflect.Float64 => "float64"
  | reflect.Complex64 => "complex64" | reflect.Complex128 => "complex128"
  | reflect.Array => "array" | reflect.Chan => "chan" | reflect.Func => "func"
  | reflect.Interface => "interface" | reflect.Map => "map"
  | reflect.Ptr => "ptr" | reflect.Slice => "slice"
  | reflect.String => "string" | reflect.Struct => "struct"
  | reflect.UnsafePointer => "unsafe.Pointer"
  end.

(** The carriers of the values the package does not look into. *)
Class GoValues := {
  float : Type;
  timeVal : Type;
  structVal : Type
}.

(** Values. A pointer is [nil] or the address of a heap cell; a slice is
    [nil] or its elements (the package only ever builds a slice with
    [reflect.MakeSlice] and assigns it whole). *)
Inductive value `{GoValues} :=
| VBool (b : bool)
| VInt (n : Z)
| VUint (n : Z)
| VFloat (f : float)
| VString (s : string)
| VTime (t : timeVal)
| VStruct (c : structVal)
| VPtr (p : option nat)
| VSlice (elems : option (list value))
| VOther.

Inductive wordSize := W32 | W64.

(** The platform and the standard-library functions taken as given:
    [ParseFloat] is [strconv.ParseFloat], [toFloat32] the conversion
    [float32(x)], [timeParse] is [time.Parse(time.RFC3339, _)],
    [jsonUnmarshal t data v] is [json.Unmarshal(data, p)] for [p] pointing
    to a cell of type [t] holding [v] and returns what the cell holds
    afterwards, [fracNanos] is the float64 arithmetic of
    [time.ParseDuration]. *)
Class GoLib `{GoValues} := {
  word : wordSize;
  floatZero : float;
  toFloat32 : float -> float;
  ParseFloat : string -> Z -> float * option error;
  timeZero : timeVal;
  timeParse : string -> timeVal * option error;
  structZero : string -> structVal;
  jsonUnmarshal : rtype -> string -> value -> value * option error;
  fracNanos : Z -> nat -> Z -> Z
}.

(** [bits.UintSize], also [strconv.IntSize]. *)
Definition UintSize `{GoLib} : Z :=
  match word with W32 => 32 | W64 => 64 end.

(** What a Go function with result [error] can do: return [nil], return
    an error, or panic. *)
Inductive ret (E : Type) :=
| Nil
| Err (e : E)
| Panic (msg : string).

Arguments Nil {E}.
Arguments Err {E} e.
Arguments Panic {E} msg.

Section Engine.
Context `{GoLib}.

Definition heap := list value.

(** The zero value of a type, as [reflect.New] and [reflect.MakeSlice]
    store it. *)
Definition zero (t : rtype) : value :=
  match t with
  | TBool => VBool false
  | TString => VString EmptyString
  | TInt _ => VInt 0
  | TUint _ => VUint 0
  | TFloat _ => VFloat floatZero
  | TDuration => VInt 0
  | TTime => VTime timeZero
  | TStruct name => VStruct (structZero name)
  | TPtr _ => VPtr None
  | TSlice _ => VSlice None
  | TOther _ => VOther
  end.

Definition intBits (k : intKind) : Z :=
  match k with
  | KInt => UintSize | KInt8 => 8 | KInt16 => 16 | KInt32 => 32 | KInt64 => 64
  end.

Definition uintBits (k : uintKind) : Z :=
  match k with
  | KUint => UintSize | KUint8 => 8 | KUint16 => 16 | KUint32 => 32
  | KUint64 => 64
  end.

Definition wrapSigned (bits n : Z) : Z :=
  (n + 2 ^ (bits - 1)) mod 2 ^ bits - 2 ^ (bits - 1).

Definition wrapUnsigned (bits n : Z) : Z := n mod 2 ^ bits.

(** [reflect.Value.SetInt]: the conversion to the width of the kind. *)
Definition SetInt (t : rtype) (x : Z) : value :=
  match t with
  | TInt k => VInt (wrapSigned (intBits k) x)
  | _ => VInt (wrapSigned 64 x)
  end.

(** [reflect.Value.SetUint]. *)
Definition SetUint (t : rtype) (x : Z) : value :=
  match t with
  | TUint k => VUint (wrapUnsigned (uintBits k) x)
  | _ => VUint (wrapUnsigned 64 x)
  end.

(** [reflect.Value.SetFloat]. *)
Definition SetFloat (t : rtype) (x : float) : value :=
  match t with
  | TFloat KFloat32 => VFloat (toFloat32 x)
  | _ => VFloat x
  end.

Definition indexPanic {E : Type} : ret E :=
  Panic "runtime error: index out of range [0] with length 0".

(** ** handover.go: the setters

    A setter receives the type of the place [property], the content [old]
    of the place and the raw strings; it returns the content of the place
    after the call and the [error] result. The setters that allocate also
    take and return the heap. *)

Definition setString (old : value) (values : list string) : value * ret error :=
  match values with
  | [] => (old, indexPanic)
  | v0 :: _ => (VString v0, Nil)
  end.

Definition setInt (t : rtype) (old : value) (values : list string) (size : Z)
  : value * ret error :=
  match values with
  | [] => (old, indexPanic)
  | v0 :: _ =>
      match t with
      | TDuration =>
          let '(d, err) := ParseDuration fracNanos v0 in
          match err with
          | Some e => (old, Err e)
          | None => (SetInt t d, Nil)
          end
      | _ =>
          let '(v, err) := ParseInt UintSize v0 size in
          match err with
          | Some e => (old, Err e)
          | None => (SetInt t v, Nil)
          end
      end
  end.

Definition setUInt (t : rtype) (old : value) (values : list string) (size : Z)
  : value * ret error :=
  match values with
  | [] => (old, indexPanic)
  | v0 :: _ =>
      let '(ui, err) := ParseUint UintSize v0 size in
      match err with
      | Some e => (old, Err e)
      | None => (SetUint t ui, Nil)
      end
  end.

Definition setBool (old : value) (values : list string) : value * ret error :=
  match values with
  | [] => (old, indexPanic)
  | v0 :: _ =>
      let '(b, err) := ParseBool v0 in
      match err with
      | Some e => (old, Err e)
      | None => (VBool b, Nil)
      end
  end.

Definition setFloat (t : rtype) (old : value) (values : list string) (size : Z)
  : value * ret error :=
  match values with
  | [] => (old, indexPanic)
  | v0 :: _ =>
      let '(f, err) := ParseFloat v0 size in
      match err with
      | Some e => (old, Err e)
      | None => (SetFloat t f, Nil)
      end
  end.

(** [setStruct]: the [default] case decodes into a cell obtained from
    [reflect.New] and copies the cell into the place on success. *)
Definition setStruct (t : rtype) (old : value) (values : list string) (h : heap)
  : heap * value * ret error :=
  match values with
  | [] => (h, old, indexPanic)
  | v0 :: _ =>
      match t with
      | TTime =>
          let '(tm, err) := timeParse v0 in
          match err with
          | Some e => (h, old, Err e)
          | None => (h, VTime tm, Nil)
          end
      | _ =>
          let '(s, err) := jsonUnmarshal t v0 (zero t) in
          match err with
          | Some e => ((h ++ [s])%list, old, Err e)
          | None => ((h ++ [s])%list, s, Nil)
          end
      end
  end.

(** [setPointer]: the place is set to a new cell before the recursive
    call, which then works on that cell. *)
Definition setPointer (setElem : value -> list string -> heap -> heap * value * ret error)
  (elem : rtype) (values : list string) (h : heap) : heap * value * ret error :=
  let l := length h in
  let '(h', v, r) := setElem (zero elem) values (h ++ [zero elem])%list in
  (<[l := v]> h', VPtr (Some l), r).

(** The conversion loop of the byte-array case: each element becomes the
    decimal string of its first byte; [None] is the panic of [[]byte(c)[0]]
    on an empty element. *)
Fixpoint byteStrings (values : list string) : option (list string) :=
  match values with
  | [] => Some []
  | c :: rest =>
      match c, byteStrings rest with
      | String b _, Some rest' => Some (FormatUint (byteOf b) :: rest')
      | _, _ => None
      end
  end.

(** The loop [for i := 0; i < lenVals; i++] of [setSlice]; the elements of
    the new slice start as zero values. *)
Fixpoint setSliceLoop (setElem : value -> list string -> heap -> heap * value * ret error)
  (elem : rtype) (values : list string) (h : heap) : heap * list value * ret error :=
  match values with
  | [] => (h, [], Nil)
  | s :: rest =>
      let '(h1, v, r) := setElem (zero elem) [s] h in
      match r with
      | Nil =>
          let '(h2, vs, r2) := setSliceLoop setElem elem rest h1 in
          (h2, v :: vs, r2)
      | _ => (h1, [], r)
      end
  end.

Definition setSlice (setElem : value -> list string -> heap -> heap * value * ret error)
  (elem : rtype) (old : value) (values : list string) (h : heap)
  : heap * value * ret error :=
  let prepared :=
    match Kind elem with
    | reflect.Uint8 =>
        match values with
        | [] => None
        | v0 :: _ => byteStrings (Split v0)
        end
    | _ => Some values
    end in
  match prepared with
  | None => (h, old, indexPanic)
  | Some values =>
      let '(h', slice, r) := setSliceLoop setElem elem values h in
      match r with
      | Nil => (h', VSlice (Some slice), Nil)
      | _ => (h', old, r)
      end
  end.

Definition noHeap (h : heap) (r : value * ret error) : heap * value * ret error :=
  (h, fst r, snd r).

Fixpoint setValue (t : rtype) (property : value) (values : list string) (h : heap)
  : heap * value * ret error :=
  match t with
  | TPtr elem => setPointer (setValue elem) elem values h
  | TSlice elem => setSlice (setValue elem) elem property values h
  | _ =>
      match Kind t with
      | reflect.String => noHeap h (setString property values)
      | reflect.Int => noHeap h (setInt t property values UintSize)
      | reflect.Int8 => noHeap h (setInt t property values 8)
      | reflect.Int16 => noHeap h (setInt t property values 16)
      | reflect.Int32 => noHeap h (setInt t property values 32)
      | reflect.Int64 => noHeap h (setInt t property values 64)
      | reflect.Uint => noHeap h (setUInt t property values UintSize)
      | reflect.Uint8 => noHeap h (setUInt t property values 8)
      | reflect.Uint16 => noHeap h (setUInt t property values 16)
      | reflect.Uint32 => noHeap h (setUInt t property values 32)
      | reflect.Uint64 => noHeap h (setUInt t property values 64)
      | reflect.Bool => noHeap h (setBool property values)
      | reflect.Float32 => noHeap h (setFloat t property values 32)
      | reflect.Float64 => noHeap h (setFloat t property values 64)
      | reflect.Struct => setStruct t property values h
      | kind =>
          (h, property,
           Err (errorString ("unsupported property kind " ++ quote (kindName kind))))
      end
  end.

End Engine.

(** ** errors.go: [newError] *)

Definition newError (field source : string) (values : list string) (err : error)
  : Error :=
  let e := mkError field source EmptyString err in
  let withValue (v : string) := mkError field source v err in
  match err with
  | NumError _ Num _ => withValue Num
  | ParseError _ Value _ _ _ => withValue Value
  | UnsupportedValueError Str => withValue Str
  | _ =>
      match values with
      | [] => e
      | [v0] => withValue v0
      | _ => withValue ("[" ++ Join values " " ++ "]")
      end
  end.

(** ** handover.go: sources and the driver *)

(** A [Valuer] is [nil] or a [values]. *)
Definition Valuer := option (list string).

Definition Value (v : list string) : Valuer := Some v.

Definition values_ (v : Valuer) : list string :=
  match v with
  | Some l => l
  | None => []
  end.

(** [Get] is the resolver; every call of it is recorded in the state. *)
Record Source := mkSource {
  Tag : string;
  Get : string -> Valuer * option error
}.

Definition Sources := list Source.

Definition From (sources : list Source) : Sources := sources.

(** A struct field: [reflect.StructField] (the tag as the list of its
    key/value pairs, looked up as [StructTag.Lookup] does) and whether the
    field is exported. *)
Record StructField := mkField {
  sfName : string;
  sfType : rtype;
  sfTag : list (string * string);
  sfExported : bool
}.

Section Driver.
Context `{GoLib}.

(** A struct value: its fields in declaration order, each with what it
    holds. *)
Definition structure := list (StructField * value).

(** What the argument [obj] of [To] can hold: a struct, a pointer ([nil] or
    to such a thing) or a value of another kind. [None] is the [nil]
    interface. *)
Inductive target :=
| OStruct (s : structure)
| OPtr (p : option target)
| ONonStruct (k : reflect.Kind).

Definition object := option target.

(** The heap and the resolver calls made so far, as (source tag, key). *)
Record state := mkState {
  cells : heap;
  calls : list (string * string)
}.

(** The body of the loop over the sources for field [i]: [Nil] stands for
    reaching the end of the body or [continue], [Err] for [return].
    [addressable] tells whether the struct was reached through a pointer,
    which together with [sfExported] is [property.CanSet()]. *)
Definition attempt (addressable : bool) (i : nat) (source : Source)
  (s : structure) (st : state) : structure * state * ret toError :=
  match s !! i with
  | None => (s, st, Panic "reflect: Field index out of bounds")
  | Some (field, property) =>
      match assoc (Tag source) (sfTag field) with
      | None => (s, st, Nil)
      | Some tagValue =>
          if negb (addressable && sfExported field) then (s, st, Nil)
          else
            let '(v, err) := Get source tagValue in
            let st := mkState (cells st) (calls st ++ [(Tag source, tagValue)]) in
            let values := values_ v in
            match err with
            | Some e =>
                (s, st, Err (structError (newError tagValue (Tag source) values e)))
            | None =>
                if (length values =? 0)%nat then (s, st, Nil)
                else
                  let '(h, new, r) :=
                    setValue (sfType field) property values (cells st) in
                  let s := <[i := (field, new)]> s in
                  let st := mkState h (calls st) in
                  match r with
                  | Nil => (s, st, Nil)
                  | Err e =>
                      (s, st, Err (structError (newError tagValue (Tag source) values e)))
                  | Panic msg => (s, st, Panic msg)
                  end
            end
      end
  end.

(** [for _, source := range sources]. *)
Fixpoint forSources (addressable : bool) (i : nat) (sources : list Source)
  (s : structure) (st : state) : structure * state * ret toError :=
  match sources with
  | [] => (s, st, Nil)
  | source :: rest =>
      let '(s1, st1, r) := attempt addressable i source s st in
      match r with
      | Nil => forSources addressable i rest s1 st1
      | _ => (s1, st1, r)
      end
  end.

(** [for i := 0; i < valueOf.NumField(); i++], with [n] fields left. *)
Fixpoint forFields (addressable : bool) (sources : list Source) (n i : nat)
  (s : structure) (st : state) : structure * state * ret toError :=
  match n with
  | O => (s, st, Nil)
  | S n' =>
      let '(s1, st1, r) := forSources addressable i sources s st in
      match r with
      | Nil => forFields addressable sources n' (S i) s1 st1
      | _ => (s1, st1, r)
      end
  end.

(** [To] after the two early returns: the loop that follows pointers, then
    the loop over the fields. *)
Fixpoint fill (sources : Sources) (addressable : bool) (valueOf : target)
  (st : state) : target * state * ret toError :=
  match valueOf with
  | OPtr (Some pointee) =>
      let '(pointee', st', r) := fill sources true pointee st in
      (OPtr (Some pointee'), st', r)
  | OPtr None =>
      (valueOf, st, Panic "reflect: call of reflect.Value.Type on zero Value")
  | ONonStruct k =>
      (valueOf, st,
       Panic ("reflect: call of reflect.Value.NumField on " ++ kindName k ++ " Value"))
  | OStruct s =>
      let '(s', st', r) := forFields addressable sources (length s) 0 s st in
      (OStruct s', st', r)
  end.

(** [Sources.To]: the object and the state after the call, and the
    result. *)
Definition To (sources : Sources) (obj : object) (st : state)
  : object * state * ret toError :=
  match obj with
  | None => (obj, st, Err (plainError (errorString "given struct to fill is nil")))
  | Some valueOf =>
      if (length sources =? 0)%nat then (obj, st, Nil)
      else
        let '(valueOf', st', r) := fill sources false valueOf st in
        (Some valueOf', st', r)
  end.

End Driver.

(** ** A library instance for closed examples

    The black-box parsers of this instance reject every input; it serves
    to run the model on inputs that do not reach them. *)

#[local] Instance exampleValues : GoValues :=
  {| float := Z; timeVal := Z; structVal := string |}.

#[local] Instance exampleLib : GoLib :=
  {| word := W64;
     floatZero := 0;
     toFloat32 := fun f => f;
     ParseFloat := fun s _ => (0, Some (syntaxError "ParseFloat" s));
     timeZero := 0;
     timeParse := fun s => (0, Some (ParseError "2006-01-02T15:04:05Z07:00" s EmptyString EmptyString EmptyString));
     structZero := fun _ => "{}";
     jsonUnmarshal := fun _ _ v => (v, Some (SyntaxError "invalid character" 0));
     fracNanos := fun _ _ _ => 0 |}.

(** ** Notions used to state the properties *)

Section Notions.
Context `{GoLib}.

Definition integerType (t : rtype) : Prop :=
  match t with
  | TInt _ | TUint _ => True
  | _ => False
  end.

(** The integers a field of an integer type can hold. *)
Definition representable (t : rtype) (n : Z) : Prop :=
  match t with
  | TInt k => - 2 ^ (intBits k - 1) <= n < 2 ^ (intBits k - 1)
  | TUint k => 0 <= n < 2 ^ uintBits k
  | _ => False
  end.

Definition integerValue (t : rtype) (n : Z) : value :=
  match t with
  | TUint _ => VUint n
  | _ => VInt n
  end.

(** The scalar types and, for each, the error (if any) of the
    standard-library parser of that type on [s]. *)
Definition scalarType (t : rtype) : Prop :=
  match t with
  | TInt _ | TUint _ | TBool | TFloat _ | TDuration => True
  | _ => False
  end.

Definition parseError (t : rtype) (s : string) : option error :=
  match t with
  | TInt k => snd (ParseInt UintSize s (intBits k))
  | TUint k => snd (ParseUint UintSize s (uintBits k))
  | TBool => snd (ParseBool s)
  | TFloat KFloat32 => snd (ParseFloat s 32)
  | TFloat KFloat64 => snd (ParseFloat s 64)
  | TDuration => snd (ParseDuration fracNanos s)
  | _ => None
  end.

(** The first byte of a character, [[]byte(c)[0]]. *)
Definition firstByte (c : string) : Z :=
  match c with
  | String b _ => byteOf b
  | EmptyString => 0
  end.

Definition singleton (c : ascii) : string := String c EmptyString.

Definition isASCII (s : string) : Prop :=
  Forall (fun c => byteOf c < 128) (list_ascii_of_string s).

(** [vs] has one element per raw string, each one the result of coercing
    its string alone into an element. *)
Definition coercedEach (elem : rtype) (values : list string) (vs : list value) : Prop :=
  length vs = length values
  /\ forall (i : nat) s v, values !! i = Some s -> vs !! i = Some v ->
       exists h1 h2, setValue elem (zero elem) [s] h1 = (h2, v, Nil).

(** A setter that never changes or frees an existing cell. *)
Definition extendsHeap
  (f : value -> list string -> heap -> heap * value * ret error) : Prop :=
  forall old values h, h `prefix_of` (f old values h).1.1.

End Notions.

(** ** Notions used to state the properties of the driver *)

(** The call came back: it did not panic. *)
Definition returns {E : Type} (r : ret E) : Prop :=
  match r with
  | Panic _ => False
  | _ => True
  end.

(** The rendering of a raw value bag: nothing, the single string, or the
    strings joined by spaces inside brackets. *)
Definition renderValues (values : list string) : string :=
  match values with
  | [] => EmptyString
  | [v0] => v0
  | _ => "[" ++ Join values " " ++ "]"
  end.

(** The errors that record the text they refer to. *)
Definition recordedText (err : error) : option string :=
  match err with
  | NumError _ Num _ => Some Num
  | ParseError _ Value _ _ _ => Some Value
  | UnsupportedValueError Str => Some Str
  | _ => None
  end.

Section DriverNotions.
Context `{GoLib}.

(** The field/source combinations in the order of the two loops: fields
    in declaration order, and for each field the sources in declaration
    order. *)
Definition combos (n : nat) (sources : list Source) : list (nat * Source) :=
  flat_map (fun i => map (pair i) sources) (seq 0 n).

(** Running a list of combinations one after the other, stopping at the
    first that does not end with [Nil]. *)
Fixpoint runCombos (addressable : bool) (cs : list (nat * Source))
  (s : structure) (st : state) : structure * state * ret toError :=
  match cs with
  | [] => (s, st, Nil)
  | (i, source) :: rest =>
      let '(s1, st1, r) := attempt addressable i source s st in
      match r with
      | Nil => runCombos addressable rest s1 st1
      | _ => (s1, st1, r)
      end
  end.

(** A struct behind [depth] pointers: [&s] is [pointerTo 1 s]. *)
Fixpoint pointerTo (depth : nat) (s : structure) : target :=
  match depth with
  | O => OStruct s
  | S d => OPtr (Some (pointerTo d s))
  end.

End DriverNotions.

(** ** Notions used to state further properties *)

(** [t] behind [d] pointers. *)
Fixpoint ptrN (d : nat) (t : rtype) : rtype :=
  match d with
  | O => t
  | S d' => TPtr (ptrN d' t)
  end.

Definition isPointer (t : rtype) : bool :=
  match t with
  | TPtr _ => true
  | _ => false
  end.

Fixpoint allDigits (s : string) : bool :=
  match s with
  | EmptyString => true
  | String c s' => isDigit c && allDigits s'
  end.

(** What a string field holds after the sources had their turn, in order:
    the first string of the last source that has a key for the field and
    returned at least one string. *)
Fixpoint lastSupplied `{GoValues} (tag : list (string * string))
  (sources : list Source) (current : value) : value :=
  match sources with
  | [] => current
  | source :: rest =>
      match assoc (Tag source) tag with
      | None => lastSupplied tag rest current
      | Some key =>
          match values_ (Get source key).1 with
          | [] => lastSupplied tag rest current
          | v0 :: _ => lastSupplied tag rest (VString v0)
          end
      end
  end.

(** The resolver calls a list of combinations asks for, given the fields:
    one call for each combination whose field is exported and has a key
    for the source. *)
Definition expectedCalls (fields : list StructField)
  (cs : list (nat * Source)) : list (string * string) :=
  flat_map
    (fun c : nat * Source =>
       match fields !! c.1 with
       | Some field =>
           if sfExported field then
             match assoc (Tag c.2) (sfTag field) with
             | Some key => [(Tag c.2, key)]
             | None => []
             end
           else []
       | None => []
       end) cs.

(** A field the driver never sets: unexported, or without a key for any
    of the sources. *)
Definition ineligible (field : StructField) (sources : list Source) : Prop :=
  sfExported field = false
  \/ Forall (fun source => assoc (Tag source) (sfTag field) = None) sources.

(** * Properties *)

Local Open Scope list_scope.


(** ** strconv: parsing what was formatted *)

Lemma FormatUint_eq i :
  FormatUint i =
  if Z_lt_dec i 10 then String (byteChr (48 + i)) EmptyString
  else (FormatUint (i / 10) ++ String (byteChr (48 + i mod 10)) EmptyString)%string.
Proof.
  rewrite FormatUint_equation_1. destruct (Z_lt_dec i 10); reflexivity.
Qed.

Lemma byteOf_byteChr n : 0 <= n < 256 -> byteOf (byteChr n) = n.
Proof.
  intros Hn. unfold byteOf, byteChr.
  rewrite N_ascii_embedding; [lia|]. lia.
Qed.

Lemma byteOf_range c : 0 <= byteOf c < 256.
Proof.
  unfold byteOf. pose proof (N_ascii_bounded c). lia.
Qed.

Lemma isDigit_byteChr d : 0 <= d < 10 -> isDigit (byteChr (48 + d)) = true.
Proof.
  intros Hd. unfold isDigit. rewrite byteOf_byteChr by lia.
  apply andb_true_intro; split; apply Z.leb_le; lia.
Qed.

Lemma parseUintLoop_app maxVal s c n :
  parseUintLoop maxVal (s ++ String c EmptyString)%string n =
  match parseUintLoop maxVal s n with
  | inl k => parseUintLoop maxVal (String c EmptyString) k
  | inr e => inr e
  end.
Proof.
  revert n. induction s as [|a s IH]; intros n; [reflexivity|].
  cbn [append parseUintLoop].
  destruct (isDigit a); [|reflexivity].
  destruct (maxUint64 / 10 + 1 <=? n); [reflexivity|].
  cbv zeta.
  destruct ((wrap64 (wrap64 (n * 10) + (byteOf a - 48)) <? wrap64 (n * 10))
            || (maxVal <? wrap64 (wrap64 (n * 10) + (byteOf a - 48)))); [reflexivity|].
  apply IH.
Qed.

Lemma parseUintLoop_digit maxVal d n :
  0 <= d < 10 -> 0 <= n ->
  parseUintLoop maxVal (String (byteChr (48 + d)) EmptyString) n =
  if maxUint64 / 10 + 1 <=? n then inr ErrRange
  else if (2 ^ 64 <=? n * 10 + d) || (maxVal <? n * 10 + d) then inr ErrRange
       else inl (n * 10 + d).
Proof.
  intros Hd Hn. cbn [parseUintLoop]. rewrite isDigit_byteChr by lia.
  rewrite byteOf_byteChr by lia.
  replace (48 + d - 48) with d by lia.
  change (maxUint64 / 10 + 1) with 1844674407370955162.
  destruct (1844674407370955162 <=? n) eqn:Hcut; [reflexivity|].
  apply Z.leb_gt in Hcut. cbv zeta. unfold wrap64.
  change (2 ^ 64) with 18446744073709551616.
  rewrite (Z.mod_small (n * 10)) by lia.
  destruct (18446744073709551616 <=? n * 10 + d) eqn:Hov.
  - apply Z.leb_le in Hov.
    assert (Hm : (n * 10 + d) mod 18446744073709551616 = n * 10 + d - 18446744073709551616).
    { symmetry. apply Z.mod_unique with 1; lia. }
    rewrite Hm.
    replace (n * 10 + d - 18446744073709551616 <? n * 10) with true
      by (symmetry; apply Z.ltb_lt; lia).
    reflexivity.
  - apply Z.leb_gt in Hov. rewrite (Z.mod_small (n * 10 + d)) by lia.
    replace (n * 10 + d <? n * 10) with false by (symmetry; apply Z.ltb_ge; lia).
    reflexivity.
Qed.

Lemma parseUintLoop_FormatUint maxVal i :
  0 <= maxVal < 2 ^ 64 -> 0 <= i ->
  parseUintLoop maxVal (FormatUint i) 0 =
  if i <=? maxVal then inl i else inr ErrRange.
Proof.
  intros Hmax. induction i as [i IH] using (well_founded_induction (Z.lt_wf 0)).
  intros Hi. rewrite FormatUint_eq.
  change (2 ^ 64) with 18446744073709551616 in Hmax.
  destruct (Z_lt_dec i 10) as [Hlt|Hge].
  - rewrite parseUintLoop_digit by lia.
    change (maxUint64 / 10 + 1) with 1844674407370955162.
    change (2 ^ 64) with 18446744073709551616.
    replace (1844674407370955162 <=? 0) with false by reflexivity.
    replace (18446744073709551616 <=? 0 * 10 + i) with false
      by (symmetry; apply Z.leb_gt; lia).
    replace (0 * 10 + i) with i by lia. cbn [orb].
    destruct (i <=? maxVal) eqn:Hle.
    + apply Z.leb_le in Hle.
      replace (maxVal <? i) with false by (symmetry; apply Z.ltb_ge; lia).
      reflexivity.
    + apply Z.leb_gt in Hle.
      replace (maxVal <? i) with true by (symmetry; apply Z.ltb_lt; lia).
      reflexivity.
  - assert (Hdiv : 0 <= i / 10 < i) by (split; [apply Z.div_pos|apply Z.div_lt]; lia).
    pose proof (Z.mod_pos_bound i 10 ltac:(lia)) as Hmod.
    pose proof (Z.div_mod i 10 ltac:(lia)) as Hdm.
    rewrite parseUintLoop_app, (IH (i / 10)) by lia.
    destruct (i / 10 <=? maxVal) eqn:Hq.
    + apply Z.leb_le in Hq.
      rewrite parseUintLoop_digit by lia.
      change (maxUint64 / 10 + 1) with 1844674407370955162.
      change (2 ^ 64) with 18446744073709551616.
      replace (i / 10 * 10 + i mod 10) with i by lia.
      destruct (1844674407370955162 <=? i / 10) eqn:Hcut.
      * apply Z.leb_le in Hcut.
        replace (i <=? maxVal) with false by (symmetry; apply Z.leb_gt; lia).
        reflexivity.
      * destruct (18446744073709551616 <=? i) eqn:Hov.
        -- apply Z.leb_le in Hov.
           replace (i <=? maxVal) with false by (symmetry; apply Z.leb_gt; lia).
           reflexivity.
        -- cbn [orb]. destruct (i <=? maxVal) eqn:Hle.
           ++ apply Z.leb_le in Hle.
              replace (maxVal <? i) with false by (symmetry; apply Z.ltb_ge; lia).
              reflexivity.
           ++ apply Z.leb_gt in Hle.
              replace (maxVal <? i) with true by (symmetry; apply Z.ltb_lt; lia).
              reflexivity.
    + apply Z.leb_gt in Hq.
      replace (i <=? maxVal) with false by (symmetry; apply Z.leb_gt; lia).
      reflexivity.
Qed.

Lemma FormatUint_head i :
  0 <= i -> exists c rest, FormatUint i = String c rest /\ isDigit c = true.
Proof.
  induction i as [i IH] using (well_founded_induction (Z.lt_wf 0)).
  intros Hi. rewrite FormatUint_eq. destruct (Z_lt_dec i 10) as [Hlt|Hge].
  - eexists _, _. split; [reflexivity|]. apply isDigit_byteChr. lia.
  - assert (Hdiv : 0 <= i / 10 < i) by (split; [apply Z.div_pos|apply Z.div_lt]; lia).
    destruct (IH (i / 10) Hdiv (proj1 Hdiv)) as (c & rest & -> & Hc).
    eexists _, _. split; [reflexivity|exact Hc].
Qed.

Lemma isDigit_not_sign c :
  isDigit c = true -> Ascii.eqb c "+" = false /\ Ascii.eqb c "-" = false.
Proof.
  intros Hc. split.
  - destruct (Ascii.eqb_spec c "+") as [->|]; [discriminate Hc|reflexivity].
  - destruct (Ascii.eqb_spec c "-") as [->|]; [discriminate Hc|reflexivity].
Qed.

Lemma pow2_le_63 b : 0 <= b <= 63 -> 0 < 2 ^ b <= 2 ^ 63.
Proof.
  intros Hb. split; [apply Z.pow_pos_nonneg; lia|].
  apply Z.pow_le_mono_r; lia.
Qed.

Lemma maxVal_eq bits :
  1 <= bits <= 64 -> wrap64 (wrap64 (2 ^ bits) - 1) = 2 ^ bits - 1.
Proof.
  intros Hb. unfold wrap64. destruct (Z.eq_dec bits 64) as [->|Hne].
  - reflexivity.
  - pose proof (pow2_le_63 bits ltac:(lia)) as Hp.
    change (2 ^ 63) with 9223372036854775808 in Hp.
    change (2 ^ 64) with 18446744073709551616.
    rewrite (Z.mod_small (2 ^ bits)) by lia. apply Z.mod_small. lia.
Qed.

Lemma ParseUint_FormatUint intSize i bits :
  0 <= i -> 1 <= bits <= 64 ->
  ParseUint intSize (FormatUint i) bits =
  if i <=? 2 ^ bits - 1 then (i, None)
  else (2 ^ bits - 1, Some (rangeError "ParseUint" (FormatUint i))).
Proof.
  intros Hi Hb. destruct (FormatUint_head i Hi) as (c & rest & Heq & _).
  unfold ParseUint. destruct (FormatUint i) as [|c' rest'] eqn:E; [discriminate Heq|].
  cbv zeta.
  replace ((bits <? 0) || (64 <? bits)) with false
    by (symmetry; apply orb_false_intro; apply Z.ltb_ge; lia).
  replace (bits =? 0) with false by (symmetry; apply Z.eqb_neq; lia).
  rewrite maxVal_eq by lia. rewrite <- E.
  assert (Hm : 0 <= 2 ^ bits - 1 < 2 ^ 64).
  { destruct (Z.eq_dec bits 64) as [->|Hne]; [split; reflexivity || discriminate|].
    pose proof (pow2_le_63 bits ltac:(lia)) as Hp.
    change (2 ^ 63) with 9223372036854775808 in Hp.
    change (2 ^ 64) with 18446744073709551616. lia. }
  rewrite parseUintLoop_FormatUint by assumption.
  destruct (i <=? 2 ^ bits - 1); reflexivity.
Qed.

Lemma ParseInt_FormatInt intSize n bits :
  2 <= bits <= 64 ->
  ParseInt intSize (FormatInt n) bits =
  if (- 2 ^ (bits - 1) <=? n) && (n <? 2 ^ (bits - 1)) then (n, None)
  else (if n <? 0 then - 2 ^ (bits - 1) else 2 ^ (bits - 1) - 1,
        Some (rangeError "ParseInt" (FormatInt n))).
Proof.
  intros Hb.
  pose proof (pow2_le_63 (bits - 1) ltac:(lia)) as Hp.
  assert (Hpow : 2 ^ bits = 2 * 2 ^ (bits - 1)).
  { rewrite <- Z.pow_succ_r by lia. f_equal. lia. }
  assert (Hcut : wrap64 (2 ^ (bits - 1)) = 2 ^ (bits - 1)).
  { unfold wrap64. apply Z.mod_small.
    change (2 ^ 63) with 9223372036854775808 in Hp.
    change (2 ^ 64) with 18446744073709551616. lia. }
  assert (Hb0 : (bits =? 0) = false) by (apply Z.eqb_neq; lia).
  assert (Hp2 : 2 ^ 1 <= 2 ^ (bits - 1)) by (apply Z.pow_le_mono_r; lia).
  change (2 ^ 1) with 2 in Hp2.
  unfold FormatInt. destruct (n <? 0) eqn:Hneg.
  - apply Z.ltb_lt in Hneg. unfold ParseInt.
    change (Ascii.eqb "-" "-") with true. change (Ascii.eqb "-" "+") with false.
    cbn [orb negb andb]. rewrite ParseUint_FormatUint by lia.
    rewrite Hb0, Hcut.
    replace (n <? 2 ^ (bits - 1)) with true by (symmetry; apply Z.ltb_lt; lia).
    rewrite andb_true_r.
    destruct (- n <=? 2 ^ bits - 1) eqn:Hu.
    + destruct (2 ^ (bits - 1) <? - n) eqn:Hc.
      * apply Z.ltb_lt in Hc.
        replace (- 2 ^ (bits - 1) <=? n) with false by (symmetry; apply Z.leb_gt; lia).
        reflexivity.
      * apply Z.ltb_ge in Hc.
        replace (- 2 ^ (bits - 1) <=? n) with true by (symmetry; apply Z.leb_le; lia).
        f_equal. lia.
    + apply Z.leb_gt in Hu. unfold rangeError at 1.
      replace (2 ^ (bits - 1) <? 2 ^ bits - 1) with true
        by (symmetry; apply Z.ltb_lt; lia).
      replace (- 2 ^ (bits - 1) <=? n) with false by (symmetry; apply Z.leb_gt; lia).
      reflexivity.
  - apply Z.ltb_ge in Hneg.
    destruct (FormatUint_head n Hneg) as (c & rest & Heq & Hc).
    destruct (isDigit_not_sign c Hc) as [Hplus Hminus].
    unfold ParseInt. destruct (FormatUint n) as [|c' rest'] eqn:E; [discriminate Heq|].
    injection Heq as -> ->. rewrite Hplus, Hminus. cbn [orb negb andb].
    rewrite <- E. rewrite ParseUint_FormatUint by lia.
    rewrite Hb0, Hcut.
    replace (- 2 ^ (bits - 1) <=? n) with true by (symmetry; apply Z.leb_le; lia).
    cbn [andb].
    destruct (n <=? 2 ^ bits - 1) eqn:Hu.
    + destruct (2 ^ (bits - 1) <=? n) eqn:Hc2.
      * apply Z.leb_le in Hc2.
        replace (n <? 2 ^ (bits - 1)) with false by (symmetry; apply Z.ltb_ge; lia).
        reflexivity.
      * apply Z.leb_gt in Hc2.
        replace (n <? 2 ^ (bits - 1)) with true by (symmetry; apply Z.ltb_lt; lia).
        reflexivity.
    + apply Z.leb_gt in Hu. unfold rangeError at 1.
      replace (2 ^ (bits - 1) <=? 2 ^ bits - 1) with true
        by (symmetry; apply Z.leb_le; lia).
      replace (n <? 2 ^ (bits - 1)) with false by (symmetry; apply Z.ltb_ge; lia).
      reflexivity.
Qed.

(** ** The scalar setters *)

Section Scalars.
Context `{GoLib}.

Lemma UintSize_cases : UintSize = 32 \/ UintSize = 64.
Proof. unfold UintSize. destruct word; [left|right]; reflexivity. Qed.

Lemma intBits_range k : 2 <= intBits k <= 64.
Proof. pose proof UintSize_cases. destruct k; cbn [intBits]; lia. Qed.

Lemma uintBits_range k : 1 <= uintBits k <= 64.
Proof. pose proof UintSize_cases. destruct k; cbn [uintBits]; lia. Qed.

Lemma setValue_TInt k property values h :
  setValue (TInt k) property values h =
  noHeap h (setInt (TInt k) property values (intBits k)).
Proof. destruct k; reflexivity. Qed.

Lemma setValue_TUint k property values h :
  setValue (TUint k) property values h =
  noHeap h (setUInt (TUint k) property values (uintBits k)).
Proof. destruct k; reflexivity. Qed.

Lemma wrapSigned_small bits n :
  1 <= bits -> - 2 ^ (bits - 1) <= n < 2 ^ (bits - 1) -> wrapSigned bits n = n.
Proof.
  intros Hb Hn. unfold wrapSigned.
  assert (Hpow : 2 ^ bits = 2 * 2 ^ (bits - 1)).
  { rewrite <- Z.pow_succ_r by lia. f_equal. lia. }
  rewrite Z.mod_small by lia. lia.
Qed.

Lemma wrapUnsigned_small bits n : 0 <= n < 2 ^ bits -> wrapUnsigned bits n = n.
Proof. intros Hn. unfold wrapUnsigned. apply Z.mod_small. exact Hn. Qed.

Lemma setInt_FormatInt k old n rest :
  setInt (TInt k) old (FormatInt n :: rest) (intBits k) =
  if (- 2 ^ (intBits k - 1) <=? n) && (n <? 2 ^ (intBits k - 1))
  then (VInt n, Nil)
  else (old, Err (rangeError "ParseInt" (FormatInt n))).
Proof.
  pose proof (intBits_range k) as Hb. unfold setInt.
  rewrite ParseInt_FormatInt by exact Hb.
  destruct ((- 2 ^ (intBits k - 1) <=? n) && (n <? 2 ^ (intBits k - 1))) eqn:Hr;
    [|reflexivity].
  apply andb_prop in Hr as [Hlo Hhi]. apply Z.leb_le in Hlo. apply Z.ltb_lt in Hhi.
  cbn [SetInt]. rewrite wrapSigned_small by lia. reflexivity.
Qed.

Lemma ParseUint_negative intSize n bits :
  n < 0 -> 0 <= bits <= 64 ->
  ParseUint intSize (FormatInt n) bits = (0, Some (syntaxError "ParseUint" (FormatInt n))).
Proof.
  intros Hn Hb. unfold FormatInt.
  replace (n <? 0) with true by (symmetry; apply Z.ltb_lt; lia).
  unfold ParseUint.
  replace ((bits <? 0) || (64 <? bits)) with false
    by (symmetry; apply orb_false_intro; apply Z.ltb_ge; lia).
  reflexivity.
Qed.

Lemma setUInt_FormatInt k old n rest :
  setUInt (TUint k) old (FormatInt n :: rest) (uintBits k) =
  if n <? 0 then (old, Err (syntaxError "ParseUint" (FormatInt n)))
  else if n <? 2 ^ uintBits k then (VUint n, Nil)
       else (old, Err (rangeError "ParseUint" (FormatInt n))).
Proof.
  pose proof (uintBits_range k) as Hb. unfold setUInt.
  destruct (n <? 0) eqn:Hneg.
  - apply Z.ltb_lt in Hneg. rewrite ParseUint_negative by lia. reflexivity.
  - apply Z.ltb_ge in Hneg. unfold FormatInt.
    replace (n <? 0) with false by (symmetry; apply Z.ltb_ge; lia).
    rewrite ParseUint_FormatUint by lia.
    destruct (n <? 2 ^ uintBits k) eqn:Hr.
    + apply Z.ltb_lt in Hr.
      replace (n <=? 2 ^ uintBits k - 1) with true by (symmetry; apply Z.leb_le; lia).
      cbn [SetUint]. rewrite wrapUnsigned_small by lia. reflexivity.
    + apply Z.ltb_ge in Hr.
      replace (n <=? 2 ^ uintBits k - 1) with false by (symmetry; apply Z.leb_gt; lia).
      reflexivity.
Qed.

(** C6. Round trip: for every integer [n] representable in the bit width
    of an integer field (signed, or unsigned for non-negative [n]),
    coercing the base-10 rendering of [n] into the field succeeds and
    stores exactly [n]. *)
Theorem C6_decimal_round_trip (t : rtype) (n : Z) (old : value)
  (rest : list string) (h : heap) :
  representable t n ->
  setValue t old (FormatInt n :: rest) h = (h, integerValue t n, Nil).
Proof.
  destruct t as [| |k|k| | | | | | |]; cbn [representable]; try contradiction; intros Hn.
  - rewrite setValue_TInt, setInt_FormatInt.
    replace ((- 2 ^ (intBits k - 1) <=? n) && (n <? 2 ^ (intBits k - 1))) with true.
    + reflexivity.
    + symmetry. apply andb_true_intro. split; [apply Z.leb_le|apply Z.ltb_lt]; lia.
  - rewrite setValue_TUint, setUInt_FormatInt.
    replace (n <? 0) with false by (symmetry; apply Z.ltb_ge; lia).
    replace (n <? 2 ^ uintBits k) with true by (symmetry; apply Z.ltb_lt; lia).
    reflexivity.
Qed.

(** A scalar setter whose parser rejects the first raw string returns the
    parser's error and writes nothing. *)
Lemma scalar_parse_failure (t : rtype) (old : value) (s : string)
  (rest : list string) (h : heap) (e : error) :
  parseError t s = Some e -> setValue t old (s :: rest) h = (h, old, Err e).
Proof.
  intros He.
  destruct t as [| |k|k|k| | | | | |]; cbn [parseError] in He; try discriminate He.
  - unfold setValue, Kind, noHeap, setBool.
    destruct (ParseBool s) as [b err]. cbn [snd] in He. subst err. reflexivity.
  - rewrite setValue_TInt. unfold noHeap, setInt.
    destruct (ParseInt UintSize s (intBits k)) as [v err]. cbn [snd] in He.
    subst err. reflexivity.
  - rewrite setValue_TUint. unfold noHeap, setUInt.
    destruct (ParseUint UintSize s (uintBits k)) as [v err]. cbn [snd] in He.
    subst err. reflexivity.
  - destruct k; unfold setValue, Kind, noHeap, setFloat;
      [destruct (ParseFloat s 32) as [v err]|destruct (ParseFloat s 64) as [v err]];
      cbn [snd] in He; subst err; reflexivity.
  - unfold setValue, Kind, noHeap, setInt.
    destruct (ParseDuration fracNanos s) as [v err]. cbn [snd] in He.
    subst err. reflexivity.
Qed.

(** C3. For every scalar field type (signed or unsigned integer of any
    width, boolean, float, duration): if the first raw string does not
    parse for that type, the coercion fails with the parser's error and
    the field and the heap are as before the call; the decimal rendering
    of an integer out of range for an integer field is such a string. *)
Theorem C3_scalar_failure_keeps_value (t : rtype) (old : value)
  (rest : list string) (h : heap) :
  (forall s e, scalarType t -> parseError t s = Some e ->
     setValue t old (s :: rest) h = (h, old, Err e))
  /\ (forall n, integerType t -> ~ representable t n ->
        exists fn k,
          parseError t (FormatInt n) = Some (NumError fn (FormatInt n) k)
          /\ setValue t old (FormatInt n :: rest) h =
             (h, old, Err (NumError fn (FormatInt n) k))).
Proof.
  split.
  - intros s e _ He. apply scalar_parse_failure. exact He.
  - intros n Ht Hn.
    destruct t as [| |k|k| | | | | | |]; cbn [integerType] in Ht; try contradiction;
      cbn [representable] in Hn; cbn [parseError].
    + pose proof (intBits_range k) as Hb.
      rewrite setValue_TInt, setInt_FormatInt, ParseInt_FormatInt by exact Hb.
      replace ((- 2 ^ (intBits k - 1) <=? n) && (n <? 2 ^ (intBits k - 1))) with false.
      * exists "ParseInt", ErrRange. split; reflexivity.
      * symmetry. apply andb_false_iff.
        destruct (Z_lt_dec n (- 2 ^ (intBits k - 1))) as [Hlo|Hlo];
          [left; apply Z.leb_gt|right; apply Z.ltb_ge]; lia.
    + pose proof (uintBits_range k) as Hb.
      rewrite setValue_TUint, setUInt_FormatInt.
      destruct (n <? 0) eqn:Hneg.
      * apply Z.ltb_lt in Hneg. rewrite ParseUint_negative by lia.
        exists "ParseUint", ErrSyntax. split; reflexivity.
      * apply Z.ltb_ge in Hneg.
        replace (n <? 2 ^ uintBits k) with false by (symmetry; apply Z.ltb_ge; lia).
        unfold FormatInt at 1.
        replace (n <? 0) with false by (symmetry; apply Z.ltb_ge; lia).
        rewrite ParseUint_FormatUint by lia.
        replace (n <=? 2 ^ uintBits k - 1) with false by (symmetry; apply Z.leb_gt; lia).
        exists "ParseUint", ErrRange. unfold FormatInt.
        replace (n <? 0) with false by (symmetry; apply Z.ltb_ge; lia).
        split; reflexivity.
Qed.

End Scalars.

(** ** time.ParseDuration *)

Lemma leadingInt_length s x v r :
  leadingInt s x = Some (v, r) -> (String.length r <= String.length s)%nat.
Proof.
  revert x. induction s as [|c s IH]; intros x Hs; cbn [leadingInt] in Hs.
  - injection Hs as _ <-. reflexivity.
  - destruct (isDigit c).
    + destruct (2 ^ 63 / 10 <? x); [discriminate|].
      cbv zeta in Hs.
      destruct (2 ^ 63 <? wrap64 (x * 10 + byteOf c - 48)); [discriminate|].
      apply IH in Hs. cbn [String.length]. lia.
    + injection Hs as _ <-. reflexivity.
Qed.

Lemma leadingFraction_length s x k o :
  (String.length (snd (leadingFraction s x k o)) <= String.length s)%nat.
Proof.
  revert x k o. induction s as [|c s IH]; intros x k o; cbn [leadingFraction].
  - reflexivity.
  - destruct (isDigit c); [|reflexivity].
    cbn [String.length].
    destruct o; [specialize (IH x k true); lia|].
    destruct ((2 ^ 63 - 1) / 10 <? x); [specialize (IH x k true); lia|].
    cbv zeta.
    destruct (2 ^ 63 <? wrap64 (x * 10 + byteOf c - 48));
      [specialize (IH x k true)|specialize (IH (wrap64 (x * 10 + byteOf c - 48)) (S k) false)];
      lia.
Qed.

Lemma spanUnit_length s :
  (String.length (fst (spanUnit s)) + String.length (snd (spanUnit s)) = String.length s)%nat.
Proof.
  induction s as [|c s IH]; cbn [spanUnit]; [reflexivity|].
  destruct (isDotOrDigit c); [reflexivity|].
  destruct (spanUnit s) as [u r]. cbn [fst snd String.length] in *. lia.
Qed.

(** The fuel of the loop is never used up: with at least [length s] of it
    the result does not depend on the amount. *)
Lemma parseDurationLoop_fuel fr fuel1 fuel2 orig s d :
  (String.length s <= fuel1)%nat -> (String.length s <= fuel2)%nat ->
  parseDurationLoop fr fuel1 orig s d = parseDurationLoop fr fuel2 orig s d.
Proof.
  revert fuel2 s d. induction fuel1 as [|fuel1 IH]; intros fuel2 s d H1 H2.
  - destruct s; [destruct fuel2; reflexivity|cbn [String.length] in H1; lia].
  - destruct s as [|c s']; [destruct fuel2; reflexivity|].
    destruct fuel2 as [|fuel2]; [cbn [String.length] in H2; lia|].
    cbn [parseDurationLoop].
    destruct (negb (isDotOrDigit c)); [reflexivity|].
    destruct (leadingInt (String c s') 0) as [[v s1]|] eqn:Hli; [|reflexivity].
    apply leadingInt_length in Hli.
    set (frac := match s1 with
                 | String "." s1' =>
                     let '(f, k, r) := leadingFraction s1' 0 0%nat false in
                     (f, k, r, negb (strLen s1' =? strLen r))
                 | _ => (0, 0%nat, s1, false)
                 end).
    assert (Hfrac : (String.length (snd (fst frac)) <= String.length s1)%nat).
    { subst frac. destruct s1 as [|a s1']; [reflexivity|].
      destruct (Ascii.eqb_spec a "."%char) as [->|Hne].
      - pose proof (leadingFraction_length s1' 0 0%nat false) as Hl.
        destruct (leadingFraction s1' 0 0%nat false) as [[f k] r].
        cbn [fst snd String.length] in *. lia.
      - assert (Hmatch : forall (A : Type) (x y : A),
                   match a with "."%char => x | _ => y end = y).
        { intros A x y. destruct a as [[] [] [] [] [] [] [] []]; try reflexivity.
          contradiction Hne. reflexivity. }
        rewrite Hmatch. reflexivity. }
    destruct frac as [[[f k] s2] post]. cbn [fst snd] in Hfrac.
    destruct (negb (negb (strLen (String c s') =? strLen s1)) && negb post); [reflexivity|].
    pose proof (spanUnit_length s2) as Hsp.
    destruct (spanUnit s2) as [u s3]. cbn [fst snd] in Hsp.
    destruct u as [|b u]; [reflexivity|].
    destruct (assoc (String b u) unitMap) as [unit|]; [|reflexivity].
    destruct (2 ^ 63 / unit <? v); [reflexivity|].
    cbv zeta.
    destruct ((0 <? f) && (2 ^ 63 <? (if 0 <? f then wrap64 (wrap64 (v * unit) + fr f k unit)
                                      else wrap64 (v * unit)))); [reflexivity|].
    match goal with |- context [if ?b then _ else _] => destruct b; [reflexivity|] end.
    cbn [String.length] in *. apply IH; lia.
Qed.

Lemma int64_range n : - 2 ^ 63 <= int64 n < 2 ^ 63.
Proof.
  unfold int64. pose proof (Z.mod_pos_bound (n + 2 ^ 63) (2 ^ 64) eq_refl). lia.
Qed.

Lemma ParseDuration_range fr s : - 2 ^ 63 <= fst (ParseDuration fr s) < 2 ^ 63.
Proof.
  unfold ParseDuration. cbv zeta.
  match goal with |- context [String.eqb ?a "0"] => destruct (String.eqb a "0") end;
    [cbn; lia|].
  match goal with |- context [parseDurationLoop ?f ?n ?o ?x ?d] =>
    destruct (parseDurationLoop f n o x d) as [d'|e] end.
  - pose proof (int64_range d'). pose proof (int64_range (- int64 d')).
    repeat match goal with |- context [if ?b then _ else _] => destruct b end;
    repeat match goal with |- context [match ?x with EmptyString => _ | _ => _ end] =>
      destruct x end; cbn [fst]; lia.
  - repeat match goal with |- context [match ?x with EmptyString => _ | _ => _ end] =>
      destruct x end; cbn [fst]; lia.
Qed.

Section Duration.
Context `{GoLib}.

(** C7. A field of type [time.Duration] is coerced by parsing the first
    raw string as a duration literal: ["1h"] gives 3600 seconds (in
    nanoseconds), ["1"], which has no unit, fails with a conversion error
    and leaves the field as it was. *)
Theorem C7_duration_literals (old : value) (rest : list string) (h : heap) :
  (forall s,
     setValue TDuration old (s :: rest) h =
     match ParseDuration fracNanos s with
     | (d, None) => (h, VInt d, Nil)
     | (_, Some e) => (h, old, Err e)
     end)
  /\ setValue TDuration old ("1h" :: rest) h = (h, VInt (3600 * 1000000000), Nil)
  /\ setValue TDuration old ("1" :: rest) h =
     (h, old, Err (errorString ("time: missing unit in duration " ++ quote "1")%string)).
Proof.
  assert (Hgen : forall s,
     setValue TDuration old (s :: rest) h =
     match ParseDuration fracNanos s with
     | (d, None) => (h, VInt d, Nil)
     | (_, Some e) => (h, old, Err e)
     end).
  { intros s. unfold setValue, Kind, noHeap, setInt.
    pose proof (ParseDuration_range fracNanos s) as Hr.
    destruct (ParseDuration fracNanos s) as [d [e|]]; [reflexivity|].
    cbn [fst snd SetInt] in *. rewrite wrapSigned_small by (cbn; lia). reflexivity. }
  split; [exact Hgen|]. split; rewrite Hgen; reflexivity.
Qed.

End Duration.

(** ** The heap only grows *)

Section Heap.
Context `{GoLib}.

Lemma insert_fresh_cell (h ext : heap) (z v : value) :
  <[length h := v]> ((h ++ [z]) ++ ext) = (h ++ [v]) ++ ext.
Proof.
  rewrite <- !(assoc_L (++)). rewrite insert_app_r_alt by lia.
  rewrite Nat.sub_diag. reflexivity.
Qed.

Lemma setSliceLoop_extends setElem elem values h :
  extendsHeap setElem -> h `prefix_of` (setSliceLoop setElem elem values h).1.1.
Proof.
  intros Hext. revert h. induction values as [|s rest IH]; intros h; cbn [setSliceLoop].
  - reflexivity.
  - pose proof (Hext (zero elem) [s] h) as H1.
    destruct (setElem (zero elem) [s] h) as [[h1 v] r]. cbn [fst] in H1.
    destruct r; cbn [fst]; try exact H1.
    specialize (IH h1).
    destruct (setSliceLoop setElem elem rest h1) as [[h2 vs] r2]. cbn [fst] in *.
    etrans; eassumption.
Qed.

Lemma setValue_extends t : extendsHeap (setValue t).
Proof.
  induction t as [| |k|k|k| | |name|elem IH|elem IH|k]; intros old values h;
    try (destruct k; cbn; reflexivity); try (cbn; reflexivity).
  - (* time.Time *)
    cbn [setValue Kind]. unfold setStruct. destruct values as [|v0 rest]; [reflexivity|].
    destruct (timeParse v0) as [tm [e|]]; reflexivity.
  - (* other structs *)
    cbn [setValue Kind]. unfold setStruct. destruct values as [|v0 rest]; [reflexivity|].
    destruct (jsonUnmarshal (TStruct name) v0 (zero (TStruct name))) as [s [e|]];
      cbn [fst]; apply prefix_app_r; reflexivity.
  - (* pointers *)
    cbn [setValue]. unfold setPointer.
    pose proof (IH (zero elem) values (h ++ [zero elem])) as [ext Hext].
    destruct (setValue elem (zero elem) values (h ++ [zero elem])) as [[h' v] r].
    cbn [fst] in *. subst h'. rewrite insert_fresh_cell.
    rewrite <- (assoc_L (++)). apply prefix_app_r. reflexivity.
  - (* slices *)
    cbn [setValue]. unfold setSlice.
    match goal with |- context [match ?p with Some _ => _ | None => _ end] =>
      destruct p as [prepared|] end; [|reflexivity].
    pose proof (setSliceLoop_extends (setValue elem) elem prepared h IH) as Hl.
    destruct (setSliceLoop (setValue elem) elem prepared h) as [[h' slice] r].
    cbn [fst] in Hl. destruct r; exact Hl.
Qed.

(** C8. A pointer field given raw strings that coerce into the pointed-to
    type ends up non-nil, pointing to a cell that did not exist before the
    call and that holds the coerced value; the cells that existed are
    untouched. *)
Theorem C8_pointer_is_fresh_and_set (elem : rtype) (old : value) (s : string)
  (rest : list string) (h h' : heap) (v : value) :
  setValue elem (zero elem) (s :: rest) (h ++ [zero elem]) = (h', v, Nil) ->
  setValue (TPtr elem) old (s :: rest) h = (<[length h := v]> h', VPtr (Some (length h)), Nil)
  /\ h !! length h = None
  /\ <[length h := v]> h' !! length h = Some v
  /\ h `prefix_of` <[length h := v]> h'.
Proof.
  intros Hinner. split; [|split; [|split]].
  - cbn [setValue]. unfold setPointer. rewrite Hinner. reflexivity.
  - apply lookup_ge_None. lia.
  - pose proof (setValue_extends elem (zero elem) (s :: rest) (h ++ [zero elem])) as [ext Hext].
    rewrite Hinner in Hext. cbn [fst] in Hext. subst h'.
    apply list_lookup_insert_eq. rewrite !length_app. cbn [length]. lia.
  - pose proof (setValue_extends elem (zero elem) (s :: rest) (h ++ [zero elem])) as [ext Hext].
    rewrite Hinner in Hext. cbn [fst] in Hext. subst h'.
    rewrite insert_fresh_cell, <- (assoc_L (++)). apply prefix_app_r. reflexivity.
Qed.

(** The example of the claim: a [*string] field given ["x"]. *)
Lemma pointer_to_string_example (old : value) (h : heap) :
  setValue (TPtr TString) old ["x"] h =
  (h ++ [VString "x"], VPtr (Some (length h)), Nil).
Proof.
  cbn [setValue]. unfold setPointer. cbn.
  rewrite <- (app_nil_r (h ++ [VString EmptyString])), insert_fresh_cell, app_nil_r.
  reflexivity.
Qed.

End Heap.

(** ** strings.Split with an empty separator *)

Lemma runeSize_pos c s : (1 <= runeSize (String c s))%nat.
Proof.
  unfold runeSize.
  repeat match goal with
         | |- context [if ?b then _ else _] => destruct b
         | |- context [match ?x with EmptyString => _ | String _ _ => _ end] => destruct x
         end; lia.
Qed.

Lemma runeCountFrom_drop j s : runeCountFrom j s = runeCountFrom 0 (dropStr j s).
Proof.
  revert j. induction s as [|c s IH]; intros [|j]; try reflexivity.
  cbn [runeCountFrom dropStr]. apply IH.
Qed.

Lemma runeCount_step c s :
  runeCountFrom 0 (String c s) =
  S (runeCountFrom 0 (dropStr (runeSize (String c s)) (String c s))).
Proof.
  pose proof (runeSize_pos c s) as Hpos.
  cbn [runeCountFrom]. rewrite runeCountFrom_drop.
  destruct (runeSize (String c s)) as [|n]; [lia|].
  cbn [dropStr]. rewrite Nat.sub_succ, Nat.sub_0_r. reflexivity.
Qed.

Lemma takeStr_dropStr n s : (takeStr n s ++ dropStr n s)%string = s.
Proof.
  revert s. induction n as [|n IH]; intros [|c s]; try reflexivity.
  cbn [takeStr dropStr append]. rewrite IH. reflexivity.
Qed.

Lemma explodeLoop_nonempty k s :
  runeCountFrom 0 s = S k -> Forall (fun c => c <> EmptyString) (explodeLoop k s).
Proof.
  revert s. induction k as [|k IH]; intros s Hs; cbn [explodeLoop].
  - constructor; [|constructor]. intros ->. discriminate Hs.
  - destruct s as [|c s]; [discriminate Hs|].
    rewrite runeCount_step in Hs. injection Hs as Hs.
    constructor; [|apply IH; exact Hs].
    pose proof (runeSize_pos c s) as Hpos.
    destruct (runeSize (String c s)); [lia|]. discriminate.
Qed.

Lemma Split_nonempty s : Forall (fun c => c <> EmptyString) (Split s).
Proof.
  unfold Split, explode. destruct (RuneCountInString s) as [|k] eqn:Hk.
  - constructor.
  - apply explodeLoop_nonempty. exact Hk.
Qed.

Lemma explodeLoop_concat k s :
  fold_right append EmptyString (explodeLoop k s) = s.
Proof.
  revert s. induction k as [|k IH]; intros s; cbn [explodeLoop fold_right].
  - clear. induction s as [|c s IH]; [reflexivity|]. cbn [append]. rewrite IH. reflexivity.
  - rewrite IH. apply takeStr_dropStr.
Qed.

(** The elements of [Split s] are non-empty consecutive pieces of [s]. *)
Lemma Split_concat s : fold_right append EmptyString (Split s) = s.
Proof.
  unfold Split, explode. destruct (RuneCountInString s) as [|k] eqn:Hk.
  - destruct s; [reflexivity|]. unfold RuneCountInString in Hk.
    rewrite runeCount_step in Hk. discriminate Hk.
  - apply explodeLoop_concat.
Qed.

Lemma explodeLoop_ascii k s :
  isASCII s -> runeCountFrom 0 s = S k ->
  explodeLoop k s = map singleton (list_ascii_of_string s).
Proof.
  revert s. induction k as [|k IH]; intros s Ha Hs.
  - destruct s as [|c s]; [discriminate Hs|].
    apply Forall_cons_1 in Ha as [Hc Ha].
    assert (Hsize : runeSize (String c s) = 1%nat).
    { unfold runeSize. replace (byteOf c <? 128) with true; [reflexivity|].
      symmetry. apply Z.ltb_lt. exact Hc. }
    rewrite runeCount_step, Hsize in Hs. cbn [dropStr] in Hs.
    destruct s as [|c' s]; [reflexivity|].
    rewrite runeCount_step in Hs. discriminate Hs.
  - destruct s as [|c s]; [discriminate Hs|].
    apply Forall_cons_1 in Ha as [Hc Ha].
    assert (Hsize : runeSize (String c s) = 1%nat).
    { unfold runeSize. replace (byteOf c <? 128) with true; [reflexivity|].
      symmetry. apply Z.ltb_lt. exact Hc. }
    rewrite runeCount_step, Hsize in Hs. cbn [dropStr] in Hs. injection Hs as Hs.
    cbn [explodeLoop]. rewrite Hsize. cbn [takeStr dropStr].
    cbn [list_ascii_of_string map]. f_equal. apply IH; assumption.
Qed.

(** On an ASCII string the characters are the bytes. *)
Lemma Split_ascii s : isASCII s -> Split s = map singleton (list_ascii_of_string s).
Proof.
  intros Ha. unfold Split, explode. destruct (RuneCountInString s) as [|k] eqn:Hk.
  - destruct s; [reflexivity|]. unfold RuneCountInString in Hk.
    rewrite runeCount_step in Hk. discriminate Hk.
  - apply explodeLoop_ascii; assumption.
Qed.

(** ** Sequences *)

Section Sequences.
Context `{GoLib}.

Lemma firstByte_range c : 0 <= firstByte c < 256.
Proof. destruct c; cbn [firstByte]; [lia|apply byteOf_range]. Qed.

Lemma byteStrings_nonempty cs :
  Forall (fun c => c <> EmptyString) cs ->
  byteStrings cs = Some (map (fun c => FormatUint (firstByte c)) cs).
Proof.
  induction 1 as [|c cs Hc _ IH]; [reflexivity|].
  cbn [byteStrings map]. rewrite IH. destruct c; [contradiction Hc|]; reflexivity.
Qed.

Lemma setValue_byte (b : Z) (old : value) (rest : list string) (h : heap) :
  0 <= b < 256 ->
  setValue (TUint KUint8) old (FormatUint b :: rest) h = (h, VUint b, Nil).
Proof.
  intros Hb. pose proof (setUInt_FormatInt KUint8 old b rest) as Hs.
  unfold FormatInt in Hs.
  replace (b <? 0) with false in Hs by (symmetry; apply Z.ltb_ge; lia).
  cbn [uintBits] in Hs.
  replace (b <? 2 ^ 8) with true in Hs by (symmetry; apply Z.ltb_lt; cbn; lia).
  rewrite setValue_TUint. cbn [uintBits]. rewrite Hs. reflexivity.
Qed.

Lemma setSliceLoop_bytes (cs : list string) (h : heap) :
  setSliceLoop (setValue (TUint KUint8)) (TUint KUint8)
    (map (fun c => FormatUint (firstByte c)) cs) h =
  (h, map (fun c => VUint (firstByte c)) cs, Nil).
Proof.
  induction cs as [|c cs IH]; [reflexivity|].
  cbn [map setSliceLoop]. rewrite setValue_byte by apply firstByte_range.
  rewrite IH. reflexivity.
Qed.

Lemma setSliceLoop_each setElem elem values h h' vs :
  setSliceLoop setElem elem values h = (h', vs, Nil) ->
  length vs = length values
  /\ forall (i : nat) s v, values !! i = Some s -> vs !! i = Some v ->
       exists h1 h2, setElem (zero elem) [s] h1 = (h2, v, Nil).
Proof.
  revert h h' vs. induction values as [|s0 rest IH]; intros h h' vs Hl;
    cbn [setSliceLoop] in Hl.
  - injection Hl as _ <-. split; [reflexivity|]. intros i s v Hi. discriminate Hi.
  - destruct (setElem (zero elem) [s0] h) as [[h1 v0] r] eqn:Hfirst.
    destruct r; try discriminate Hl.
    destruct (setSliceLoop setElem elem rest h1) as [[h2 vs'] r2] eqn:Hrest.
    injection Hl as _ <- ->.
    destruct (IH _ _ _ Hrest) as [Hlen Heach].
    split; [cbn [length]; lia|].
    intros [|i] s v Hs Hv; cbn in Hs, Hv.
    + injection Hs as <-. injection Hv as <-. eauto.
    + eapply Heach; eassumption.
Qed.

Lemma Kind_Uint8 elem : Kind elem = reflect.Uint8 -> elem = TUint KUint8.
Proof. destruct elem as [| |[]|[]|[]| | | | | |[]]; cbn; congruence. Qed.

(** C2 (as the code has it). Coercing into a sequence whose element kind
    is the single-byte unsigned integer gives one byte per character of
    the first raw string (its first byte), however many raw strings were
    supplied; for every other element kind a successful coercion gives one
    element per raw string, each coerced from its one string. The single
    raw string ["AB"] gives the bytes 65 and 66. *)
Theorem C2_sequence_coercion :
  (forall elem old s rest h, Kind elem = reflect.Uint8 ->
     setValue (TSlice elem) old (s :: rest) h =
     (h, VSlice (Some (map (fun c => VUint (firstByte c)) (Split s))), Nil))
  /\ (forall elem old values h h' new, Kind elem <> reflect.Uint8 ->
        setValue (TSlice elem) old values h = (h', new, Nil) ->
        exists vs, new = VSlice (Some vs) /\ coercedEach elem values vs)
  /\ (forall old h,
        setValue (TSlice (TUint KUint8)) old ["AB"] h =
        (h, VSlice (Some [VUint 65; VUint 66]), Nil)).
Proof.
  assert (Hbytes : forall elem old s rest h, Kind elem = reflect.Uint8 ->
     setValue (TSlice elem) old (s :: rest) h =
     (h, VSlice (Some (map (fun c => VUint (firstByte c)) (Split s))), Nil)).
  { intros elem old s rest h Hk. apply Kind_Uint8 in Hk as ->.
    cbn [setValue]. unfold setSlice. cbn [Kind].
    rewrite byteStrings_nonempty by apply Split_nonempty.
    rewrite setSliceLoop_bytes. reflexivity. }
  split; [exact Hbytes|]. split.
  - intros elem old values h h' new Hk Hset.
    cbn [setValue] in Hset. unfold setSlice in Hset.
    assert (Hprep : match Kind elem with
                    | reflect.Uint8 =>
                        match values with
                        | [] => None
                        | v0 :: _ => byteStrings (Split v0)
                        end
                    | _ => Some values
                    end = Some values).
    { destruct (Kind elem); try reflexivity. contradiction Hk. reflexivity. }
    rewrite Hprep in Hset.
    destruct (setSliceLoop (setValue elem) elem values h) as [[h1 vs] r] eqn:Hloop.
    destruct r; try discriminate Hset. injection Hset as _ <-.
    exists vs. split; [reflexivity|].
    exact (setSliceLoop_each _ _ _ _ _ _ Hloop).
  - intros old h. rewrite Hbytes by reflexivity. reflexivity.
Qed.

(** For an ASCII string the bytes of the result are the bytes of the
    string. *)
Lemma byte_slice_of_ascii (old : value) (s : string) (rest : list string) (h : heap) :
  isASCII s ->
  setValue (TSlice (TUint KUint8)) old (s :: rest) h =
  (h, VSlice (Some (map (fun c => VUint (byteOf c)) (list_ascii_of_string s))), Nil).
Proof.
  intros Ha. cbn [setValue]. unfold setSlice. cbn [Kind].
  rewrite byteStrings_nonempty by apply Split_nonempty.
  rewrite setSliceLoop_bytes, (Split_ascii s Ha), map_map. reflexivity.
Qed.

End Sequences.

(** ** The driver *)

Section DriverProperties.
Context `{GoLib}.

Lemma runCombos_app addressable a b s st :
  runCombos addressable (a ++ b) s st =
  let '(s1, st1, r) := runCombos addressable a s st in
  match r with
  | Nil => runCombos addressable b s1 st1
  | _ => (s1, st1, r)
  end.
Proof.
  revert s st. induction a as [|[i source] a IH]; intros s st; [reflexivity|].
  cbn [app runCombos].
  destruct (attempt addressable i source s st) as [[s1 st1] r].
  destruct r; [apply IH|reflexivity|reflexivity].
Qed.

Lemma forSources_runCombos addressable i sources s st :
  forSources addressable i sources s st =
  runCombos addressable (map (pair i) sources) s st.
Proof.
  revert s st. induction sources as [|source rest IH]; intros s st; [reflexivity|].
  cbn [forSources map runCombos].
  destruct (attempt addressable i source s st) as [[s1 st1] r].
  destruct r; [apply IH|reflexivity|reflexivity].
Qed.

Lemma forFields_runCombos addressable sources n i s st :
  forFields addressable sources n i s st =
  runCombos addressable (flat_map (fun i => map (pair i) sources) (seq i n)) s st.
Proof.
  revert i s st. induction n as [|n IH]; intros i s st; [reflexivity|].
  cbn [forFields seq flat_map]. rewrite runCombos_app, forSources_runCombos.
  destruct (runCombos addressable (map (pair i) sources) s st) as [[s1 st1] r].
  destruct r; [apply IH|reflexivity|reflexivity].
Qed.

Lemma fill_pointerTo sources addressable depth s st :
  fill sources addressable (pointerTo depth s) st =
  let '(s', st', r) :=
    forFields (addressable || (0 <? depth)%nat) sources (length s) 0 s st in
  (pointerTo depth s', st', r).
Proof.
  revert addressable. induction depth as [|depth IH]; intros addressable.
  - cbn [pointerTo fill]. rewrite orb_false_r. reflexivity.
  - cbn [pointerTo fill]. rewrite IH. cbn [orb]. rewrite orb_true_r.
    destruct (forFields true sources (length s) 0 s st) as [[s' st'] r].
    reflexivity.
Qed.

Lemma combos_no_sources n : combos n [] = [].
Proof.
  unfold combos. induction (seq 0 n) as [|i l IH]; [reflexivity|exact IH].
Qed.

(** [To] on a struct behind [depth] pointers runs the combinations in
    order. *)
Lemma To_runCombos sources depth s st :
  To sources (Some (pointerTo depth s)) st =
  let '(s', st', r) :=
    runCombos (0 <? depth)%nat (combos (length s) sources) s st in
  (Some (pointerTo depth s'), st', r).
Proof.
  unfold To. destruct sources as [|source sources].
  - rewrite combos_no_sources. reflexivity.
  - cbn [length Nat.eqb]. rewrite fill_pointerTo, forFields_runCombos.
    cbn [orb]. unfold combos.
    destruct (runCombos _ _ s st) as [[s' st'] r]. reflexivity.
Qed.

Lemma runCombos_first_failure addressable cs s st s' st' e :
  runCombos addressable cs s st = (s', st', Err e) ->
  exists pre i source post s1 st1,
    cs = pre ++ (i, source) :: post
    /\ runCombos addressable pre s st = (s1, st1, Nil)
    /\ attempt addressable i source s1 st1 = (s', st', Err e).
Proof.
  revert s st. induction cs as [|[i source] cs IH]; intros s st Hrun;
    cbn [runCombos] in Hrun; [discriminate Hrun|].
  destruct (attempt addressable i source s st) as [[s1 st1] r] eqn:Hatt.
  destruct r as [|e1|msg]; [|injection Hrun as -> -> ->|discriminate Hrun].
  - destruct (IH _ _ Hrun) as (pre & j & src & post & s2 & st2 & -> & Hpre & Hfail).
    exists ((i, source) :: pre), j, src, post, s2, st2.
    split; [reflexivity|]. split; [|exact Hfail].
    cbn [runCombos]. rewrite Hatt. exact Hpre.
  - exists [], i, source, cs, s, st.
    split; [reflexivity|]. split; [reflexivity|exact Hatt].
Qed.

(** What one combination can change: the field it is about, new cells,
    and the record of the calls. *)
Lemma attempt_frame addressable i source s st s' st' r :
  attempt addressable i source s st = (s', st', r) ->
  (forall j, j <> i -> s' !! j = s !! j)
  /\ length s' = length s
  /\ cells st `prefix_of` cells st'
  /\ calls st `prefix_of` calls st'.
Proof.
  unfold attempt. intros Hatt.
  assert (Hsame : (s, st, r) = (s', st', r) ->
                  (forall j, j <> i -> s' !! j = s !! j)
                  /\ length s' = length s
                  /\ cells st `prefix_of` cells st'
                  /\ calls st `prefix_of` calls st').
  { intros [= <- <-]. repeat split; reflexivity. }
  destruct (s !! i) as [[field property]|]; [|injection Hatt as <- <- <-; auto].
  destruct (assoc (Tag source) (sfTag field)) as [tagValue|];
    [|injection Hatt as <- <- <-; auto].
  destruct (negb (addressable && sfExported field));
    [injection Hatt as <- <- <-; auto|].
  destruct (Get source tagValue) as [v [e|]].
  - injection Hatt as <- <- <-. repeat split; try reflexivity.
    cbn [calls]. apply prefix_app_r. reflexivity.
  - destruct (length (values_ v) =? 0)%nat.
    + injection Hatt as <- <- <-. repeat split; try reflexivity.
      cbn [calls]. apply prefix_app_r. reflexivity.
    + cbn [cells calls] in Hatt.
      pose proof (setValue_extends (sfType field) property (values_ v) (cells st)) as Hext.
      destruct (setValue (sfType field) property (values_ v) (cells st)) as [[h new] r0].
      cbn [fst] in Hext.
      assert (Hres : s' = <[i := (field, new)]> s
                     /\ st' = mkState h (calls st ++ [(Tag source, tagValue)])).
      { destruct r0; injection Hatt as <- <- _; split; reflexivity. }
      destruct Hres as [-> ->]. cbn [cells calls]. repeat split.
      * intros j Hj. apply list_lookup_insert_ne. congruence.
      * apply length_insert.
      * exact Hext.
      * apply prefix_app_r. reflexivity.
Qed.

(** The error of a failing combination: it names the key and the source
    of the combination, and its rendered value is the text recorded in
    the underlying error or else the rendering of the bag the resolver
    returned. *)
Lemma attempt_error addressable i source s st s' st' te :
  attempt addressable i source s st = (s', st', Err te) ->
  exists field property e,
    s !! i = Some (field, property)
    /\ te = structError e
    /\ assoc (Tag source) (sfTag field) = Some (Field e)
    /\ Source_ e = Tag source
    /\ Value_ e =
       match recordedText (InnerError e) with
       | Some text => text
       | None => renderValues (values_ (Get source (Field e)).1)
       end.
Proof.
  unfold attempt. intros Hatt.
  destruct (s !! i) as [[field property]|]; [|discriminate Hatt].
  destruct (assoc (Tag source) (sfTag field)) as [tagValue|] eqn:Htag;
    [|discriminate Hatt].
  destruct (negb (addressable && sfExported field)); [discriminate Hatt|].
  destruct (Get source tagValue) as [v err] eqn:Hget.
  assert (Hnew : forall e0,
    Field (newError tagValue (Tag source) (values_ v) e0) = tagValue
    /\ Source_ (newError tagValue (Tag source) (values_ v) e0) = Tag source
    /\ InnerError (newError tagValue (Tag source) (values_ v) e0) = e0
    /\ Value_ (newError tagValue (Tag source) (values_ v) e0) =
       match recordedText e0 with
       | Some text => text
       | None => renderValues (values_ v)
       end).
  { intros e0. unfold newError.
    destruct e0; cbn; try (repeat split; reflexivity);
      destruct (values_ v) as [|v0 [|v1 l]]; repeat split; reflexivity. }
  assert (Hgoal : forall e0,
    exists field0 property0 e,
      Some (field, property) = Some (field0, property0)
      /\ structError (newError tagValue (Tag source) (values_ v) e0) = structError e
      /\ assoc (Tag source) (sfTag field0) = Some (Field e)
      /\ Source_ e = Tag source
      /\ Value_ e =
         match recordedText (InnerError e) with
         | Some text => text
         | None => renderValues (values_ (Get source (Field e)).1)
         end).
  { intros e0. destruct (Hnew e0) as (Hf & Hs & Hi & Hv).
    exists field, property, (newError tagValue (Tag source) (values_ v) e0).
    rewrite Hf, Hi, Hget. repeat split; assumption. }
  destruct err as [e0|].
  - injection Hatt as _ _ <-. apply Hgoal.
  - destruct (length (values_ v) =? 0)%nat; [discriminate Hatt|].
    destruct (setValue _ _ _ _) as [[h new] r0].
    destruct r0 as [|e0|msg]; try discriminate Hatt.
    injection Hatt as _ _ <-. apply Hgoal.
Qed.

(** At the level of the record: when the parser of a scalar field rejects
    the first string its resolver returned, the combination fails and the
    struct and the heap are as before; only the call is recorded. *)
Lemma attempt_scalar_failure i source (s : structure) st field property
  tagValue v0 rest e :
  s !! i = Some (field, property) ->
  assoc (Tag source) (sfTag field) = Some tagValue ->
  sfExported field = true ->
  Get source tagValue = (Value (v0 :: rest), None) ->
  parseError (sfType field) v0 = Some e ->
  attempt true i source s st =
  (s, mkState (cells st) (calls st ++ [(Tag source, tagValue)]),
   Err (structError (newError tagValue (Tag source) (v0 :: rest) e))).
Proof.
  intros Hl Htag Hexp Hget Hparse. unfold attempt.
  rewrite Hl, Htag, Hexp, Hget. cbn [andb negb values_ Value length Nat.eqb cells calls].
  rewrite (scalar_parse_failure _ _ _ _ _ _ Hparse). cbv beta iota zeta.
  unfold structure in *. rewrite list_insert_id by exact Hl. reflexivity.
Qed.

Lemma combos_source n sources i source :
  In (i, source) (combos n sources) -> (i < n)%nat /\ In source sources.
Proof.
  unfold combos. rewrite in_flat_map. intros (j & Hj & Hin).
  apply in_seq in Hj. apply in_map_iff in Hin as (src & [= <- <-] & Hsrc).
  split; [lia|exact Hsrc].
Qed.

End DriverProperties.

(** ** No panic on a struct destination *)

Section Returns.
Context `{GoLib}.

Lemma setSliceLoop_returns setElem elem values h :
  (forall s h0, returns (setElem (zero elem) [s] h0).2) ->
  returns (setSliceLoop setElem elem values h).2.
Proof.
  intros Hel. revert h. induction values as [|s rest IH]; intros h; [exact I|].
  cbn [setSliceLoop]. specialize (Hel s h).
  destruct (setElem (zero elem) [s] h) as [[h1 v] r]. cbn [snd] in Hel.
  destruct r; [|exact I|contradiction Hel].
  specialize (IH h1). destruct (setSliceLoop setElem elem rest h1) as [[h2 vs] r2].
  exact IH.
Qed.

(** With at least one raw string no setter indexes out of range. *)
Lemma setValue_returns t old values h :
  values <> [] -> returns (setValue t old values h).2.
Proof.
  revert old values h.
  induction t as [| |k|k|k| | |name|elem IH|elem IH|k]; intros old values h Hv;
    destruct values as [|v0 rest]; try contradiction; clear Hv.
  - cbn. destruct (ParseBool v0) as [b [e|]]; exact I.
  - exact I.
  - rewrite setValue_TInt. unfold noHeap, setInt.
    destruct (ParseInt UintSize v0 (intBits k)) as [v [e|]]; exact I.
  - rewrite setValue_TUint. unfold noHeap, setUInt.
    destruct (ParseUint UintSize v0 (uintBits k)) as [v [e|]]; exact I.
  - destruct k; cbn; [destruct (ParseFloat v0 32) as [v [e|]]
                     |destruct (ParseFloat v0 64) as [v [e|]]]; exact I.
  - cbn. destruct (ParseDuration fracNanos v0) as [v [e|]]; exact I.
  - cbn. destruct (timeParse v0) as [v [e|]]; exact I.
  - cbn. destruct (jsonUnmarshal (TStruct name) v0 (VStruct (structZero name))) as [v [e|]];
      exact I.
  - cbn [setValue]. unfold setPointer.
    specialize (IH (zero elem) (v0 :: rest) (h ++ [zero elem]) ltac:(discriminate)).
    destruct (setValue elem (zero elem) (v0 :: rest) (h ++ [zero elem])) as [[h' v] r].
    exact IH.
  - cbn [setValue]. unfold setSlice.
    assert (Hloop : forall vs, returns (setSliceLoop (setValue elem) elem vs h).2).
    { intros vs. apply setSliceLoop_returns. intros s h0. apply IH. discriminate. }
    assert (Hprep : exists vs,
      match Kind elem with
      | reflect.Uint8 => byteStrings (Split v0)
      | _ => Some (v0 :: rest)
      end = Some vs).
    { destruct (Kind elem); eauto.
      rewrite byteStrings_nonempty by apply Split_nonempty. eauto. }
    destruct Hprep as [vs ->]. specialize (Hloop vs).
    destruct (setSliceLoop (setValue elem) elem vs h) as [[h' slice] r].
    destruct r; [exact I|exact I|contradiction Hloop].
  - destruct k; exact I.
Qed.

Lemma attempt_returns addressable i source (s : structure) st :
  (i < length s)%nat -> returns (attempt addressable i source s st).2.
Proof.
  intros Hi. unfold attempt.
  destruct (s !! i) as [[field property]|] eqn:Hl;
    [|apply lookup_ge_None in Hl; lia].
  destruct (assoc (Tag source) (sfTag field)); [|exact I].
  destruct (negb (addressable && sfExported field)); [exact I|].
  destruct (Get source _) as [v [e|]]; [exact I|].
  destruct (length (values_ v) =? 0)%nat eqn:Hlen; [exact I|].
  cbn [cells].
  pose proof (setValue_returns (sfType field) property (values_ v) (cells st)) as Hr.
  destruct (setValue _ _ _ _) as [[h new] r]. cbn [snd] in Hr.
  destruct r; [exact I|exact I|].
  apply Hr. intros Hnil. rewrite Hnil in Hlen. discriminate Hlen.
Qed.

Lemma runCombos_returns addressable cs (s : structure) st :
  Forall (fun c => (c.1 < length s)%nat) cs ->
  returns (runCombos addressable cs s st).2.
Proof.
  revert s st. induction cs as [|[i source] cs IH]; intros s st Hcs; [exact I|].
  apply Forall_cons_1 in Hcs as [Hi Hcs]. cbn [fst] in Hi. cbn [runCombos].
  pose proof (attempt_returns addressable i source s st Hi) as Hr.
  destruct (attempt addressable i source s st) as [[s1 st1] r] eqn:Hatt.
  cbn [snd] in Hr. destruct r; [|exact I|contradiction Hr].
  apply IH. apply attempt_frame in Hatt as (_ & Hlen & _). rewrite Hlen. exact Hcs.
Qed.

(** [To] returns (with [nil] or an error) whenever the destination is a
    struct, passed by value or behind pointers. *)
Lemma To_returns sources depth s st :
  returns (To sources (Some (pointerTo depth s)) st).2.
Proof.
  rewrite To_runCombos.
  pose proof (runCombos_returns (0 <? depth)%nat (combos (length s) sources) s st) as Hr.
  destruct (runCombos _ _ s st) as [[s' st'] r]. apply Hr.
  apply Forall_forall. intros [i source] Hin.
  apply list_elem_of_In, combos_source in Hin as [Hi _]. exact Hi.
Qed.

(** A nil pointer wrapped in a non-nil interface is not the nil
    destination of the first check of [To]; with a source declared, the
    call panics in [valueOf.Type()]. *)
Lemma To_nil_pointer_panics source sources st :
  To (source :: sources) (Some (OPtr None)) st =
  (Some (OPtr None), st, Panic "reflect: call of reflect.Value.Type on zero Value").
Proof. reflexivity. Qed.

(** A struct passed by value is not settable: nothing is written and no
    resolver is called. *)
Lemma attempt_not_addressable i source (s : structure) st :
  (i < length s)%nat -> attempt false i source s st = (s, st, Nil).
Proof.
  intros Hi. unfold attempt.
  destruct (s !! i) as [[field property]|] eqn:Hl;
    [|apply lookup_ge_None in Hl; lia].
  destruct (assoc (Tag source) (sfTag field)); reflexivity.
Qed.

End Returns.

(** ** The claims about the driver *)

Section DriverClaims.
Context `{GoLib}.


(** C4. For every non-nil destination, [To] with an empty source list
    returns [nil] and changes neither the destination nor the state. *)
Theorem C4_no_sources_is_a_no_op (valueOf : target) (st : state) :
  To [] (Some valueOf) st = (Some valueOf, st, Nil).
Proof. reflexivity. Qed.



(** C9 (as the code has it). The rendered value of a structured error is
    the text recorded in the underlying error when that error is a
    [*strconv.NumError], a [*time.ParseError] or a
    [*json.UnsupportedValueError]; for any other underlying error it is
    the rendering of the raw value bag: empty for no string, the single
    string itself for one, the strings joined by spaces inside brackets
    for several. This holds of every structured error [To] returns, for
    the bag its source returned for its key. A composite field given one
    malformed JSON text fails, keeps its value, and the rendered value is
    that text. *)
Theorem C9_rendered_value :
  (forall field source values err,
     Value_ (newError field source values err) =
     match recordedText err with
     | Some text => text
     | None => renderValues values
     end)
  /\ (forall sources depth s st obj' st' e,
        To sources (Some (pointerTo depth s)) st = (obj', st', Err (structError e)) ->
        exists source,
          In source sources /\ Tag source = Source_ e
          /\ Value_ e =
             match recordedText (InnerError e) with
             | Some text => text
             | None => renderValues (values_ (Get source (Field e)).1)
             end)
  /\ (forall name old text h field source c msg offset,
        jsonUnmarshal (TStruct name) text (zero (TStruct name)) =
          (c, Some (SyntaxError msg offset)) ->
        setValue (TStruct name) old [text] h = (h ++ [c], old, Err (SyntaxError msg offset))
        /\ Value_ (newError field source [text] (SyntaxError msg offset)) = text).
Proof.
  split; [|split].
  - intros field source values err. unfold newError.
    destruct err; cbn; try reflexivity; destruct values as [|v0 [|v1 l]]; reflexivity.
  - intros sources depth s st obj' st' e HTo. rewrite To_runCombos in HTo.
    destruct (runCombos _ _ s st) as [[s' st0] r] eqn:Hrun.
    injection HTo as <- <- ->.
    apply runCombos_first_failure in Hrun
      as (pre & i & source & post & s1 & st1 & Hsplit & Hpre & Hfail).
    destruct (attempt_error _ _ _ _ _ _ _ _ Hfail)
      as (_ & _ & er & _ & [= <-] & _ & Hsrc & Hval).
    exists source. split; [|split; [symmetry; exact Hsrc|exact Hval]].
    assert (Hin : In (i, source) (combos (length s) sources)).
    { rewrite Hsplit. apply in_or_app. right. left. reflexivity. }
    apply combos_source in Hin as [_ Hin]. exact Hin.
  - intros name old text h field source c msg offset Hjson. split; [|reflexivity].
    cbn [setValue Kind]. unfold setStruct. rewrite Hjson. reflexivity.
Qed.

End DriverClaims.

(** ** Closed instances *)

(** C2, counterexample: two raw strings for a byte sequence do not give
    one element per raw string, each coerced from its string (that would
    be 7 and 8): the second string is ignored and the first is taken
    character by character. *)
Lemma C2_counterexample :
  let values := ["7"; "8"] in
  exists slice,
    setValue (TSlice (TUint KUint8)) (VSlice None) values [] =
      ([], VSlice (Some slice), Nil)
    /\ slice = [VUint 55]
    /\ length slice <> length values
    /\ ~ coercedEach (TUint KUint8) values slice.
Proof.
  exists [VUint 55]. split; [reflexivity|]. split; [reflexivity|].
  split; [discriminate|]. intros [Hlen _]. discriminate Hlen.
Qed.

(** C9, counterexample (the case of [TestFillSliceWithInvalidValue]): a
    bag of two strings that fails to coerce into a sequence of integers is
    rendered as the one string that did not parse, not as the bracketed
    list. *)
Lemma C9_counterexample :
  let values := ["invalid"; "value"] in
  let source := mkSource "foo" (fun _ => (Value values, None)) in
  let field := mkField "Slice" (TSlice (TInt KInt)) [("foo", "bar")] true in
  exists obj' st' e,
    To [source] (Some (pointerTo 1 [(field, VSlice (Some [VInt 1]))])) (mkState [] []) =
      (obj', st', Err (structError e))
    /\ Value_ e = "invalid"
    /\ renderValues values = "[invalid value]"
    /\ Value_ e <> renderValues values.
Proof.
  eexists _, _, _. split; [vm_compute; reflexivity|].
  split; [reflexivity|]. split; [reflexivity|]. discriminate.
Qed.

(** ** The theorems at concrete inputs *)


Lemma C2_witness :
  setValue (TSlice (TUint KUint8)) (VSlice None) ["AB"; "CD"] [] =
    ([], VSlice (Some (map (fun c => VUint (firstByte c)) (Split "AB"))), Nil)
  /\ exists vs,
       VSlice (Some [VString "hello"; VString "world"]) = VSlice (Some vs)
       /\ coercedEach TString ["hello"; "world"] vs.
Proof.
  destruct C2_sequence_coercion as (Hbytes & Heach & _). split.
  - apply Hbytes. reflexivity.
  - apply (Heach TString (VSlice None) ["hello"; "world"] [] []);
      [discriminate|reflexivity].
Defined.

Lemma C3_witness :
  setValue (TInt KInt8) (VInt 7) ["abc"] [] =
    ([], VInt 7, Err (NumError "ParseInt" "abc" ErrSyntax))
  /\ exists fn k,
       parseError (TInt KInt8) (FormatInt 300) = Some (NumError fn (FormatInt 300) k)
       /\ setValue (TInt KInt8) (VInt 7) [FormatInt 300] [] =
          ([], VInt 7, Err (NumError fn (FormatInt 300) k)).
Proof.
  destruct (C3_scalar_failure_keeps_value (TInt KInt8) (VInt 7) [] []) as [Hfail Hrange].
  split.
  - apply Hfail; [exact I|reflexivity].
  - apply Hrange; [exact I|]. cbn. lia.
Defined.


Lemma C6_witness :
  representable (TInt KInt8) (-128)
  /\ setValue (TInt KInt8) (VInt 0) [FormatInt (-128)] [] = ([], VInt (-128), Nil).
Proof.
  assert (Hr : representable (TInt KInt8) (-128)) by (cbn; lia).
  split; [exact Hr|].
  exact (C6_decimal_round_trip (TInt KInt8) (-128) (VInt 0) [] [] Hr).
Defined.

Lemma C8_witness :
  setValue (TPtr TString) (VPtr None) ["x"] [] =
    ([VString "x"], VPtr (Some 0%nat), Nil)
  /\ ([] : heap) !! 0%nat = None
  /\ [VString "x"] !! 0%nat = Some (VString "x")
  /\ ([] : heap) `prefix_of` [VString "x"].
Proof.
  exact (C8_pointer_is_fresh_and_set TString (VPtr None) "x" [] []
           [VString EmptyString] (VString "x") eq_refl).
Defined.

(** C9 on the case of [TestFillStructWithInvalidJson]. *)
Lemma C9_witness :
  let text := "{ hello : invalidjson" in
  let source := mkSource "foo" (fun _ => (Value [text], None)) in
  let field := mkField "Struct" (TStruct "S") [("foo", "bar")] true in
  let old := VStruct "world" in
  let cell := VStruct "{}" in
  let e := mkError "bar" "foo" text (SyntaxError "invalid character" 0) in
  (exists src,
     In src [source] /\ Tag src = Source_ e
     /\ Value_ e =
        match recordedText (InnerError e) with
        | Some t => t
        | None => renderValues (values_ (Get src (Field e)).1)
        end)
  /\ setValue (TStruct "S") old [text] [] =
       ([cell], old, Err (SyntaxError "invalid character" 0))
  /\ Value_ (newError "bar" "foo" [text] (SyntaxError "invalid character" 0)) = text.
Proof.
  intros text source field old cell e.
  destruct C9_rendered_value as (_ & HTo & Hjson). split.
  - apply (HTo [source] 1%nat [(field, old)] (mkState [] [])
             (Some (pointerTo 1 [(field, old)]))
             (mkState [cell] [("foo", "bar")]) e).
    reflexivity.
  - apply (Hjson "S" old text [] "bar" "foo" cell "invalid character" 0).
    reflexivity.
Defined.

(** * Further properties of the coercion engine *)

Section EngineExtras.
Context `{GoLib}.

(** X1. With at least one raw string, [setValue] never panics, whatever
    the type of the field: it returns [nil] or an error. *)
Theorem X1_setValue_never_panics (t : rtype) (old : value) (v0 : string)
  (rest : list string) (h : heap) :
  returns (setValue t old (v0 :: rest) h).2.
Proof. apply setValue_returns. discriminate. Qed.

(** X2. [setValue] never changes or drops a heap cell that existed before
    the call: the heap after the call extends the heap before it. *)
Theorem X2_setValue_keeps_existing_cells (t : rtype) (old : value)
  (values : list string) (h : heap) :
  h `prefix_of` (setValue t old values h).1.1.
Proof. apply setValue_extends. Qed.

Lemma scalar_result_old (h h' : heap) (old new : value) (r : ret error)
  (p : value * ret error) :
  noHeap h p = (h', new, r) -> (p.2 = Nil \/ p.1 = old) -> r = Nil \/ new = old.
Proof. destruct p as [v r0]. intros [= <- <- <-] Hp. exact Hp. Qed.

(** X3. A coercion that does not return [nil] leaves a field of any
    non-pointer type exactly as it was (scalars, strings, timestamps,
    composites, sequences and unsupported kinds alike). *)
Theorem X3_failure_leaves_non_pointer_field (t : rtype) (old new : value)
  (values : list string) (h h' : heap) (r : ret error) :
  isPointer t = false ->
  setValue t old values h = (h', new, r) ->
  r <> Nil ->
  new = old.
Proof.
  intros Hp Hset Hr.
  assert (Hgoal : r = Nil \/ new = old); [|destruct Hgoal; [contradiction|assumption]].
  clear Hr.
  destruct t as [| |k|k|k| | |name|elem|elem|k]; try discriminate Hp; clear Hp.
  - apply (scalar_result_old _ _ _ _ _ _ Hset). unfold setBool.
    destruct values as [|v0 rest]; [right; reflexivity|].
    destruct (ParseBool v0) as [b [e|]]; [right|left]; reflexivity.
  - apply (scalar_result_old _ _ _ _ _ _ Hset). unfold setString.
    destruct values as [|v0 rest]; [right|left]; reflexivity.
  - rewrite setValue_TInt in Hset.
    apply (scalar_result_old _ _ _ _ _ _ Hset). unfold setInt.
    destruct values as [|v0 rest]; [right; reflexivity|].
    destruct (ParseInt UintSize v0 (intBits k)) as [v [e|]]; [right|left]; reflexivity.
  - rewrite setValue_TUint in Hset.
    apply (scalar_result_old _ _ _ _ _ _ Hset). unfold setUInt.
    destruct values as [|v0 rest]; [right; reflexivity|].
    destruct (ParseUint UintSize v0 (uintBits k)) as [v [e|]]; [right|left]; reflexivity.
  - destruct k; apply (scalar_result_old _ _ _ _ _ _ Hset); unfold setFloat;
      (destruct values as [|v0 rest]; [right; reflexivity|]);
      [destruct (ParseFloat v0 32) as [v [e|]]|destruct (ParseFloat v0 64) as [v [e|]]];
      (right; reflexivity) || (left; reflexivity).
  - apply (scalar_result_old _ _ _ _ _ _ Hset). unfold setInt.
    destruct values as [|v0 rest]; [right; reflexivity|].
    destruct (ParseDuration fracNanos v0) as [v [e|]]; [right|left]; reflexivity.
  - cbn [setValue Kind] in Hset. unfold setStruct in Hset.
    destruct values as [|v0 rest]; [injection Hset as _ <- _; right; reflexivity|].
    destruct (timeParse v0) as [tm [e|]]; injection Hset as _ <- <-;
      [right|left]; reflexivity.
  - cbn [setValue Kind] in Hset. unfold setStruct in Hset.
    destruct values as [|v0 rest]; [injection Hset as _ <- _; right; reflexivity|].
    destruct (jsonUnmarshal (TStruct name) v0 (zero (TStruct name))) as [s [e|]];
      injection Hset as _ <- <-; [right|left]; reflexivity.
  - cbn [setValue] in Hset. unfold setSlice in Hset.
    match type of Hset with context [match ?p with Some _ => _ | None => _ end] =>
      destruct p as [prepared|] end;
      [|injection Hset as _ <- _; right; reflexivity].
    destruct (setSliceLoop (setValue elem) elem prepared h) as [[h1 slice] r1].
    destruct r1; injection Hset as _ <- <-; (left; reflexivity) || (right; reflexivity).
  - destruct k; injection Hset as _ <- _; right; reflexivity.
Qed.

(** X4. A pointer field is replaced by a pointer to a cell allocated by
    the call even when the coercion of the pointed-to value fails: the
    field is never [nil] afterwards and never restored to what it held. *)
Theorem X4_pointer_replaced_even_on_failure (elem : rtype) (old : value)
  (values : list string) (h : heap) :
  let '(h', new, r) := setValue (TPtr elem) old values h in
  new = VPtr (Some (length h))
  /\ h !! length h = None
  /\ is_Some (h' !! length h)
  /\ h `prefix_of` h'.
Proof.
  cbn [setValue]. unfold setPointer.
  pose proof (setValue_extends elem (zero elem) values (h ++ [zero elem])) as [ext Hin].
  destruct (setValue elem (zero elem) values (h ++ [zero elem])) as [[h1 v] r].
  cbn [fst] in Hin. subst h1. rewrite (insert_fresh_cell h ext (zero elem) v).
  split; [reflexivity|]. split; [|split].
  - apply lookup_ge_None. lia.
  - apply lookup_lt_is_Some. rewrite !length_app. cbn [length]. lia.
  - rewrite <- (assoc_L (++)). apply prefix_app_r. reflexivity.
Qed.

(** X5. A sequence-of-strings field receives exactly the raw strings, in
    order; no string is rejected and nothing is allocated. With no raw
    string the result is the empty, non-nil sequence. *)
Theorem X5_string_sequence_in_order (old : value) (values : list string) (h : heap) :
  setValue (TSlice TString) old values h = (h, VSlice (Some (map VString values)), Nil).
Proof.
  change (setValue (TSlice TString) old values h)
    with (setSlice (setValue TString) TString old values h).
  unfold setSlice. cbn [Kind].
  assert (Hloop : setSliceLoop (setValue TString) TString values h =
                  (h, map VString values, Nil)).
  { induction values as [|s rest IH]; [reflexivity|].
    cbn [setSliceLoop map].
    change (setValue TString (zero TString) [s] h) with (h, VString s, @Nil error).
    cbv beta iota. rewrite IH. reflexivity. }
  rewrite Hloop. reflexivity.
Qed.

(** X6. A byte-sequence field given an ASCII string holds the bytes of
    that string, in order (the conversion that [[]byte(s)] performs). *)
Theorem X6_ascii_bytes (old : value) (s : string) (rest : list string) (h : heap) :
  isASCII s ->
  setValue (TSlice (TUint KUint8)) old (s :: rest) h =
  (h, VSlice (Some (map (fun c => VUint (byteOf c)) (list_ascii_of_string s))), Nil).
Proof. apply byte_slice_of_ascii. Qed.

Lemma setSliceLoop_first_failure setElem elem values h h' vs e :
  setSliceLoop setElem elem values h = (h', vs, Err e) ->
  exists pre s post h1 vs1 v,
    values = pre ++ s :: post
    /\ setSliceLoop setElem elem pre h = (h1, vs1, Nil)
    /\ setElem (zero elem) [s] h1 = (h', v, Err e).
Proof.
  revert h h' vs. induction values as [|s0 rest IH]; intros h h' vs Hl;
    cbn [setSliceLoop] in Hl; [discriminate Hl|].
  destruct (setElem (zero elem) [s0] h) as [[h1 v0] r] eqn:Hfirst.
  destruct r as [|e0|msg]; [|injection Hl as <- _ <-|discriminate Hl].
  - destruct (setSliceLoop setElem elem rest h1) as [[h2 vs'] r2] eqn:Hrest.
    injection Hl as -> _ ->.
    destruct (IH _ _ _ Hrest) as (pre & s & post & h3 & vs1 & v & -> & Hpre & Hfail).
    exists (s0 :: pre), s, post, h3, (v0 :: vs1), v.
    split; [reflexivity|]. split; [|exact Hfail].
    cbn [setSliceLoop]. rewrite Hfirst, Hpre. reflexivity.
  - exists [], s0, rest, h, [], v0.
    split; [reflexivity|]. split; [reflexivity|exact Hfirst].
Qed.

(** X7. When the coercion of a sequence (other than of bytes) fails, the
    error is the one of the first raw string, in order, that does not
    coerce into an element; the strings before it coerced, and the field
    keeps its value. *)
Theorem X7_sequence_first_failing_element (elem : rtype) (old new : value)
  (values : list string) (h h' : heap) (e : error) :
  Kind elem <> reflect.Uint8 ->
  setValue (TSlice elem) old values h = (h', new, Err e) ->
  new = old
  /\ exists pre s post h1 vs1 v,
       values = pre ++ s :: post
       /\ setSliceLoop (setValue elem) elem pre h = (h1, vs1, Nil)
       /\ setValue elem (zero elem) [s] h1 = (h', v, Err e).
Proof.
  intros Hk Hset. cbn [setValue] in Hset. unfold setSlice in Hset.
  assert (Hprep : match Kind elem with
                  | reflect.Uint8 =>
                      match values with
                      | [] => None
                      | v0 :: _ => byteStrings (Split v0)
                      end
                  | _ => Some values
                  end = Some values).
  { destruct (Kind elem); try reflexivity. contradiction Hk. reflexivity. }
  rewrite Hprep in Hset.
  destruct (setSliceLoop (setValue elem) elem values h) as [[h1 vs] r] eqn:Hloop.
  destruct r as [|e0|msg]; try discriminate Hset. injection Hset as <- <- <-.
  split; [reflexivity|]. exact (setSliceLoop_first_failure _ _ _ _ _ _ _ Hloop).
Qed.

End EngineExtras.

(** ** Decimal strings, durations and sequences of integers *)

Lemma allDigits_app s c :
  allDigits (s ++ String c EmptyString)%string = allDigits s && isDigit c.
Proof.
  induction s as [|a s IH]; cbn [append allDigits].
  - rewrite andb_true_r. reflexivity.
  - rewrite IH, andb_assoc. reflexivity.
Qed.

Lemma FormatUint_allDigits i : 0 <= i -> allDigits (FormatUint i) = true.
Proof.
  induction i as [i IH] using (well_founded_induction (Z.lt_wf 0)).
  intros Hi. rewrite FormatUint_eq. destruct (Z_lt_dec i 10) as [Hlt|Hge].
  - cbn [allDigits]. rewrite isDigit_byteChr by lia. reflexivity.
  - assert (Hdiv : 0 <= i / 10 < i) by (split; [apply Z.div_pos|apply Z.div_lt]; lia).
    pose proof (Z.mod_pos_bound i 10 ltac:(lia)) as Hmod.
    rewrite allDigits_app, (IH (i / 10)) by lia.
    rewrite isDigit_byteChr by lia. reflexivity.
Qed.

Lemma append_length s1 s2 :
  String.length (s1 ++ s2)%string = (String.length s1 + String.length s2)%nat.
Proof. induction s1 as [|c s1 IH]; cbn; [reflexivity|]. rewrite IH. reflexivity. Qed.

Lemma FormatUint_not_zero i : 0 < i -> FormatUint i <> "0".
Proof.
  intros Hi. rewrite FormatUint_eq. destruct (Z_lt_dec i 10) as [Hlt|Hge].
  - intros [= Hc]. apply (f_equal byteOf) in Hc.
    rewrite byteOf_byteChr in Hc by lia. change (byteOf "0"%char) with 48 in Hc. lia.
  - intros Heq. apply (f_equal String.length) in Heq.
    rewrite append_length in Heq.
    assert (Hq : 0 <= i / 10) by (apply Z.div_pos; lia).
    destruct (FormatUint_head (i / 10) Hq) as (c & rest & Hh & _).
    rewrite Hh in Heq. cbn [String.length] in Heq. lia.
Qed.

Lemma leadingInt_allDigits s x :
  allDigits s = true ->
  leadingInt s x = None \/ exists v, leadingInt s x = Some (v, EmptyString).
Proof.
  revert x. induction s as [|c s IH]; intros x Hs; cbn [leadingInt].
  - right. eauto.
  - cbn [allDigits] in Hs. apply andb_prop in Hs as [Hc Hs]. rewrite Hc.
    destruct (2 ^ 63 / 10 <? x); [left; reflexivity|].
    cbv zeta. destruct (2 ^ 63 <? wrap64 (x * 10 + byteOf c - 48)); [left; reflexivity|].
    apply IH. exact Hs.
Qed.

Lemma digit_not_sign_match (c : ascii) (r s : string) :
  isDigit c = true ->
  match String c r with
  | String "-" r' | String "+" r' => r'
  | _ => s
  end = s
  /\ match String c r with
     | String "-" _ => true
     | _ => false
     end = false.
Proof.
  intros Hc. destruct c as [[] [] [] [] [] [] [] []]; try (split; reflexivity);
    discriminate Hc.
Qed.

(** [time.ParseDuration] rejects a non-empty string of digits other than
    ["0"], with or without a leading minus sign: no unit follows. *)
Lemma ParseDuration_digits fr (neg : bool) (s : string) :
  allDigits s = true -> s <> EmptyString -> s <> "0" ->
  exists e, ParseDuration fr (if neg then String "-" s else s) = (0, Some e).
Proof.
  intros Hd Hne H0.
  assert (Hstrip : exists orig,
    ParseDuration fr (if neg then String "-" s else s) =
    match parseDurationLoop fr (String.length s) orig s 0 with
    | inr e => (0, Some e)
    | inl d =>
        if neg then (int64 (- int64 d), None)
        else if 2 ^ 63 - 1 <? d then (0, Some (invalidDuration orig))
        else (int64 d, None)
    end).
  { exists (if neg then String "-" s else s). unfold ParseDuration. destruct neg.
    - cbv zeta. cbv beta iota.
      destruct (String.eqb_spec s "0") as [->|_]; [contradiction H0; reflexivity|].
      destruct s; [contradiction Hne; reflexivity|reflexivity].
    - destruct s as [|c s]; [contradiction Hne; reflexivity|].
      cbn [allDigits] in Hd. apply andb_prop in Hd as [Hc _].
      destruct (digit_not_sign_match c s (String c s) Hc) as [Hs Hn].
      cbv zeta. rewrite Hs, Hn.
      destruct (String.eqb_spec (String c s) "0") as [Heq|_]; [contradiction|].
      reflexivity. }
  destruct Hstrip as [orig ->].
  destruct s as [|c s]; [contradiction Hne; reflexivity|].
  assert (Hc : isDigit c = true).
  { cbn [allDigits] in Hd. apply andb_prop in Hd as [Hc _]. exact Hc. }
  cbn [String.length parseDurationLoop].
  unfold isDotOrDigit. rewrite Hc, orb_true_r. cbn [negb].
  destruct (leadingInt_allDigits (String c s) 0 Hd) as [-> | [v ->]]; [eauto|].
  replace (strLen (String c s) =? strLen EmptyString) with false
    by (symmetry; apply Z.eqb_neq; unfold strLen; cbn [String.length]; lia).
  cbn. eauto.
Qed.

Section Decimals.
Context `{GoLib}.

(** X8. A [time.Duration] field rejects the decimal rendering of every
    integer other than 0: the coercion fails and the field and the heap
    are as before. (The round trip of integer fields does not extend to
    durations.) *)
Theorem X8_duration_rejects_plain_integers (n : Z) (old : value)
  (rest : list string) (h : heap) :
  n <> 0 ->
  exists e, setValue TDuration old (FormatInt n :: rest) h = (h, old, Err e).
Proof.
  intros Hn.
  assert (Hparse : exists e, ParseDuration fracNanos (FormatInt n) = (0, Some e)).
  { unfold FormatInt. destruct (n <? 0) eqn:Hneg.
    - apply Z.ltb_lt in Hneg.
      apply (ParseDuration_digits fracNanos true (FormatUint (- n))).
      + apply FormatUint_allDigits. lia.
      + destruct (FormatUint_head (- n) ltac:(lia)) as (c & r & -> & _). discriminate.
      + apply FormatUint_not_zero. lia.
    - apply Z.ltb_ge in Hneg.
      apply (ParseDuration_digits fracNanos false (FormatUint n)).
      + apply FormatUint_allDigits. lia.
      + destruct (FormatUint_head n ltac:(lia)) as (c & r & -> & _). discriminate.
      + apply FormatUint_not_zero. lia. }
  destruct Hparse as [e He]. exists e.
  apply scalar_parse_failure. cbn [parseError]. rewrite He. reflexivity.
Qed.

Lemma integer_round_trip (t : rtype) (n : Z) (old : value) (rest : list string)
  (h : heap) :
  representable t n ->
  setValue t old (FormatInt n :: rest) h = (h, integerValue t n, Nil).
Proof.
  destruct t as [| |k|k| | | | | | |]; cbn [representable]; try contradiction; intros Hn.
  - rewrite setValue_TInt, setInt_FormatInt.
    replace ((- 2 ^ (intBits k - 1) <=? n) && (n <? 2 ^ (intBits k - 1))) with true.
    + reflexivity.
    + symmetry. apply andb_true_intro. split; [apply Z.leb_le|apply Z.ltb_lt]; lia.
  - rewrite setValue_TUint, setUInt_FormatInt.
    replace (n <? 0) with false by (symmetry; apply Z.ltb_ge; lia).
    replace (n <? 2 ^ uintBits k) with true by (symmetry; apply Z.ltb_lt; lia).
    reflexivity.
Qed.

(** X9. A sequence of integers round-trips: for an integer element type
    other than the single-byte unsigned one, coercing the decimal
    renderings of integers that fit the element type gives exactly those
    integers, in order, and allocates nothing. *)
Theorem X9_integer_sequence_round_trip (t : rtype) (ns : list Z) (old : value)
  (h : heap) :
  Kind t <> reflect.Uint8 ->
  Forall (representable t) ns ->
  setValue (TSlice t) old (map FormatInt ns) h =
  (h, VSlice (Some (map (integerValue t) ns)), Nil).
Proof.
  intros Hk Hns.
  assert (Hloop : setSliceLoop (setValue t) t (map FormatInt ns) h =
                  (h, map (integerValue t) ns, Nil)).
  { induction Hns as [|n ns Hn _ IH]; [reflexivity|].
    cbn [map setSliceLoop]. rewrite (integer_round_trip t n (zero t) [] h Hn).
    rewrite IH. reflexivity. }
  change (setValue (TSlice t) old (map FormatInt ns) h)
    with (setSlice (setValue t) t old (map FormatInt ns) h).
  unfold setSlice.
  assert (Hprep : match Kind t with
                  | reflect.Uint8 =>
                      match map FormatInt ns with
                      | [] => None
                      | v0 :: _ => byteStrings (Split v0)
                      end
                  | _ => Some (map FormatInt ns)
                  end = Some (map FormatInt ns)).
  { destruct (Kind t); try reflexivity. contradiction Hk. reflexivity. }
  rewrite Hprep.
  rewrite Hloop. reflexivity.
Qed.

(** X10. A field whose type is, behind any number of pointers, of a kind
    without a case in [setValue] (channel, function, map, array,
    interface, complex, uintptr, unsafe pointer) always fails with the
    unsupported-kind error naming that kind, whatever raw strings are
    supplied, even none. *)
Theorem X10_unsupported_kind_behind_pointers (d : nat) (k : otherKind)
  (old : value) (values : list string) (h : heap) :
  (setValue (ptrN d (TOther k)) old values h).2 =
  Err (errorString ("unsupported property kind "
                    ++ quote (kindName (Kind (TOther k))))%string).
Proof.
  revert old h. induction d as [|d IH]; intros old h.
  - destruct k; reflexivity.
  - cbn [ptrN].
    change (setValue (TPtr (ptrN d (TOther k))) old values h)
      with (setPointer (setValue (ptrN d (TOther k))) (ptrN d (TOther k)) values h).
    unfold setPointer.
    specialize (IH (zero (ptrN d (TOther k))) (h ++ [zero (ptrN d (TOther k))])).
    destruct (setValue (ptrN d (TOther k)) _ values _) as [[h' v] r].
    exact IH.
Qed.

End Decimals.

(** * Further properties of the driver *)

Section DriverExtras.
Context `{GoLib}.

Lemma attempt_descriptors addressable i source (s : structure) st s' st' r :
  attempt addressable i source s st = (s', st', r) -> s'.*1 = s.*1.
Proof.
  unfold attempt. intros Hatt.
  destruct (s !! i) as [[field property]|] eqn:Hl;
    [|injection Hatt as <- _ _; reflexivity].
  destruct (assoc (Tag source) (sfTag field)) as [tagValue|];
    [|injection Hatt as <- _ _; reflexivity].
  destruct (negb (addressable && sfExported field));
    [injection Hatt as <- _ _; reflexivity|].
  destruct (Get source tagValue) as [v [e|]]; [injection Hatt as <- _ _; reflexivity|].
  destruct (length (values_ v) =? 0)%nat; [injection Hatt as <- _ _; reflexivity|].
  destruct (setValue _ _ _ _) as [[h new] r0].
  assert (Hs : s' = <[i := (field, new)]> s) by (destruct r0; congruence).
  subst s'. unfold structure in *. rewrite list_fmap_insert. cbn [fst].
  apply list_insert_id. rewrite list_lookup_fmap, Hl. reflexivity.
Qed.

Lemma runCombos_invariants addressable cs (s : structure) st s' st' r :
  runCombos addressable cs s st = (s', st', r) ->
  s'.*1 = s.*1
  /\ cells st `prefix_of` cells st'
  /\ calls st `prefix_of` calls st'.
Proof.
  revert s st. induction cs as [|[i source] cs IH]; intros s st Hrun;
    cbn [runCombos] in Hrun.
  - injection Hrun as <- <- _. repeat split; reflexivity.
  - destruct (attempt addressable i source s st) as [[s1 st1] r1] eqn:Hatt.
    pose proof (attempt_descriptors _ _ _ _ _ _ _ _ Hatt) as Hd.
    destruct (attempt_frame _ _ _ _ _ _ _ _ Hatt) as (_ & _ & Hc & Hl).
    destruct r1; try (injection Hrun as <- <- _; repeat split; assumption).
    destruct (IH _ _ Hrun) as (Hd' & Hc' & Hl').
    split; [congruence|]. split; etrans; eassumption.
Qed.

(** X11. Whatever the outcome, [To] on a struct destination keeps the
    fields themselves (number, names, types, tags), never changes or
    drops a heap cell that existed, and only adds to the record of
    resolver calls. *)
Theorem X11_To_invariants (sources : Sources) (depth : nat) (s : structure)
  (st : state) :
  let '(obj', st', r) := To sources (Some (pointerTo depth s)) st in
  (exists s', obj' = Some (pointerTo depth s') /\ s'.*1 = s.*1)
  /\ cells st `prefix_of` cells st'
  /\ calls st `prefix_of` calls st'.
Proof.
  rewrite To_runCombos.
  destruct (runCombos _ _ s st) as [[s' st'] r] eqn:Hrun.
  destruct (runCombos_invariants _ _ _ _ _ _ _ Hrun) as (Hd & Hc & Hl).
  split; [exists s'; split; [reflexivity|exact Hd]|]. split; assumption.
Qed.

Lemma runCombos_not_addressable cs (s : structure) st :
  Forall (fun c => (c.1 < length s)%nat) cs ->
  runCombos false cs s st = (s, st, Nil).
Proof.
  induction 1 as [|[i source] cs Hi _ IH]; [reflexivity|].
  cbn [runCombos]. rewrite attempt_not_addressable by exact Hi. exact IH.
Qed.

Lemma combos_in_range n sources :
  Forall (fun c : nat * Source => (c.1 < n)%nat) (combos n sources).
Proof.
  apply Forall_forall. intros [i source] Hin.
  apply list_elem_of_In, combos_source in Hin as [Hi _]. exact Hi.
Qed.

(** X12. A struct passed by value (not through a pointer) is not
    settable: [To] returns [nil], changes nothing and calls no resolver,
    whatever the sources and the tags. *)
Theorem X12_struct_by_value_is_untouched (sources : Sources) (s : structure)
  (st : state) :
  To sources (Some (OStruct s)) st = (Some (OStruct s), st, Nil).
Proof.
  change (OStruct s) with (pointerTo 0 s). rewrite To_runCombos.
  cbn [Nat.ltb Nat.leb].
  rewrite runCombos_not_addressable by apply combos_in_range. reflexivity.
Qed.

Lemma attempt_ineligible addressable j source (s : structure) st s' st' r i
  field property sources :
  attempt addressable j source s st = (s', st', r) ->
  In source sources ->
  s !! i = Some (field, property) ->
  ineligible field sources ->
  s' !! i = Some (field, property).
Proof.
  intros Hatt Hin Hl Hinel. destruct (Nat.eq_dec j i) as [->|Hne].
  - unfold attempt in Hatt. rewrite Hl in Hatt.
    destruct Hinel as [Hexp|Htag].
    + rewrite Hexp, andb_false_r in Hatt. cbn [negb] in Hatt.
      destruct (assoc (Tag source) (sfTag field)); injection Hatt as <- _ _; exact Hl.
    + rewrite Forall_forall in Htag. rewrite (Htag source) in Hatt
        by (apply list_elem_of_In; exact Hin).
      injection Hatt as <- _ _. exact Hl.
  - destruct (attempt_frame _ _ _ _ _ _ _ _ Hatt) as (Hother & _).
    rewrite Hother by congruence. exact Hl.
Qed.

Lemma runCombos_ineligible addressable cs (s : structure) st s' st' r i
  field property sources :
  runCombos addressable cs s st = (s', st', r) ->
  Forall (fun c => In c.2 sources) cs ->
  s !! i = Some (field, property) ->
  ineligible field sources ->
  s' !! i = Some (field, property).
Proof.
  intros Hrun Hcs. revert s st Hrun.
  induction Hcs as [|[j source] cs Hj _ IH]; intros s st Hrun Hl Hinel;
    cbn [runCombos] in Hrun.
  - injection Hrun as <- _ _. exact Hl.
  - destruct (attempt addressable j source s st) as [[s1 st1] r1] eqn:Hatt.
    pose proof (attempt_ineligible _ _ _ _ _ _ _ _ _ _ _ _ Hatt Hj Hl Hinel) as Hl1.
    destruct r1; try (injection Hrun as <- _ _; exact Hl1).
    eapply IH; eassumption.
Qed.

Lemma combos_sources n sources :
  Forall (fun c : nat * Source => In c.2 sources) (combos n sources).
Proof.
  apply Forall_forall. intros [i source] Hin.
  apply list_elem_of_In, combos_source in Hin as [_ Hs]. exact Hs.
Qed.

(** X13. A field that is unexported, or that has no key for any of the
    declared sources, holds after [To] exactly what it held before,
    whatever the outcome of the call. *)
Theorem X13_ineligible_field_untouched (sources : Sources) (depth : nat)
  (s : structure) (st : state) (i : nat) (field : StructField) (property : value) :
  s !! i = Some (field, property) ->
  sfExported field = false
  \/ Forall (fun source => assoc (Tag source) (sfTag field) = None) sources ->
  exists s', (To sources (Some (pointerTo depth s)) st).1.1 = Some (pointerTo depth s')
             /\ s' !! i = Some (field, property).
Proof.
  intros Hl Hinel. rewrite To_runCombos.
  destruct (runCombos _ _ s st) as [[s' st'] r] eqn:Hrun.
  exists s'. split; [reflexivity|].
  exact (runCombos_ineligible _ _ _ _ _ _ _ _ _ _ _ Hrun
           (combos_sources _ _) Hl Hinel).
Qed.

End DriverExtras.

Section DriverOrder.
Context `{GoLib}.

Lemma runCombos_app_Nil addressable a b (s : structure) st s' st' :
  runCombos addressable (a ++ b) s st = (s', st', Nil) ->
  exists s1 st1,
    runCombos addressable a s st = (s1, st1, Nil)
    /\ runCombos addressable b s1 st1 = (s', st', Nil).
Proof.
  rewrite runCombos_app.
  destruct (runCombos addressable a s st) as [[s1 st1] r].
  destruct r; intros Hrun; try discriminate Hrun. eauto.
Qed.

Lemma runCombos_other_fields addressable cs (s : structure) st s' st' r i :
  Forall (fun c => c.1 <> i) cs ->
  runCombos addressable cs s st = (s', st', r) ->
  s' !! i = s !! i.
Proof.
  intros Hcs. revert s st. induction Hcs as [|[j source] cs Hj _ IH]; intros s st Hrun;
    cbn [runCombos] in Hrun.
  - injection Hrun as <- _ _. reflexivity.
  - destruct (attempt addressable j source s st) as [[s1 st1] r1] eqn:Hatt.
    destruct (attempt_frame _ _ _ _ _ _ _ _ Hatt) as (Hother & _).
    cbn [fst] in Hj.
    assert (H1 : s1 !! i = s !! i) by (apply Hother; congruence).
    destruct r1; try (injection Hrun as <- _ _; exact H1).
    rewrite (IH _ _ Hrun). exact H1.
Qed.

Lemma block_other_fields (sources : list Source) (l : list nat) (i : nat) :
  Forall (fun j => j <> i) l ->
  Forall (fun c : nat * Source => c.1 <> i)
    (flat_map (fun j => map (pair j) sources) l).
Proof.
  intros Hl. apply Forall_forall. intros [j source] Hin.
  apply list_elem_of_In, in_flat_map in Hin as (j' & Hj' & Hin).
  apply in_map_iff in Hin as (src & [= <- <-] & _).
  rewrite Forall_forall in Hl. apply Hl. apply list_elem_of_In. exact Hj'.
Qed.

Lemma combos_split n sources i :
  (i < n)%nat ->
  combos n sources =
  flat_map (fun j => map (pair j) sources) (seq 0 i)
  ++ map (pair i) sources
  ++ flat_map (fun j => map (pair j) sources) (seq (S i) (n - S i)).
Proof.
  intros Hi. unfold combos.
  replace n with (i + S (n - S i))%nat at 1 by lia.
  rewrite seq_app, flat_map_app. cbn [seq flat_map Nat.add]. reflexivity.
Qed.

Lemma string_block (sources : list Source) i (s : structure) st s' st' field property :
  runCombos true (map (pair i) sources) s st = (s', st', Nil) ->
  s !! i = Some (field, property) ->
  sfType field = TString ->
  sfExported field = true ->
  s' !! i = Some (field, lastSupplied (sfTag field) sources property).
Proof.
  revert s st property. induction sources as [|source rest IH];
    intros s st property Hrun Hl Hty Hexp; cbn [map runCombos] in Hrun.
  - injection Hrun as <- _. exact Hl.
  - cbn [lastSupplied].
    destruct (attempt true i source s st) as [[s1 st1] r1] eqn:Hatt.
    destruct r1; try discriminate Hrun.
    unfold attempt in Hatt. rewrite Hl, Hexp in Hatt. cbn [andb negb] in Hatt.
    destruct (assoc (Tag source) (sfTag field)) as [key|].
    + destruct (Get source key) as [v [e|]]; [discriminate Hatt|]. cbn [fst].
      destruct (values_ v) as [|v0 vs] eqn:Hv.
      * injection Hatt as <- _. eapply IH; eassumption.
      * cbn [length Nat.eqb] in Hatt. rewrite Hty in Hatt.
        cbn [setValue Kind noHeap setString fst snd] in Hatt.
        injection Hatt as <- _.
        apply (IH _ _ _ Hrun); [|exact Hty|exact Hexp].
        unfold structure in *. apply list_lookup_insert_eq.
        apply lookup_lt_Some in Hl. exact Hl.
    + injection Hatt as <- _. eapply IH; eassumption.
Qed.

(** X14. When several sources supply a string field, the last one in
    declaration order wins: after a successful [To] the field holds the
    first string of the last source that has a key for it and returned at
    least one string, and its old value when there is none. *)
Theorem X14_last_source_wins (sources : Sources) (depth : nat) (s : structure)
  (st : state) (obj' : object) (st' : state) (i : nat) (field : StructField)
  (property : value) :
  To sources (Some (pointerTo (S depth) s)) st = (obj', st', Nil) ->
  s !! i = Some (field, property) ->
  sfType field = TString ->
  sfExported field = true ->
  exists s', obj' = Some (pointerTo (S depth) s')
             /\ s' !! i = Some (field, lastSupplied (sfTag field) sources property).
Proof.
  intros HTo Hl Hty Hexp. rewrite To_runCombos in HTo.
  change (0 <? S depth)%nat with true in HTo.
  destruct (runCombos true _ s st) as [[s' st0] r] eqn:Hrun.
  injection HTo as <- <- ->. exists s'. split; [reflexivity|].
  assert (Hi : (i < length s)%nat) by (apply lookup_lt_Some in Hl; exact Hl).
  rewrite (combos_split _ sources i Hi) in Hrun.
  apply runCombos_app_Nil in Hrun as (s1 & st1 & Hbefore & Hrun).
  apply runCombos_app_Nil in Hrun as (s2 & st2 & Hblock & Hafter).
  assert (Hb : Forall (fun j => j <> i) (seq 0 i)).
  { apply Forall_forall. intros j Hj. apply list_elem_of_In, in_seq in Hj. lia. }
  assert (Ha : Forall (fun j => j <> i) (seq (S i) (length s - S i))).
  { apply Forall_forall. intros j Hj. apply list_elem_of_In, in_seq in Hj. lia. }
  rewrite (runCombos_other_fields _ _ _ _ _ _ _ i
             (block_other_fields sources _ i Ha) Hafter).
  apply (string_block _ _ _ _ _ _ _ _ Hblock); [|exact Hty|exact Hexp].
  rewrite (runCombos_other_fields _ _ _ _ _ _ _ i
             (block_other_fields sources _ i Hb) Hbefore).
  exact Hl.
Qed.

Lemma runCombos_calls cs (s : structure) st s' st' :
  runCombos true cs s st = (s', st', Nil) ->
  calls st' = calls st ++ expectedCalls s.*1 cs.
Proof.
  revert s st. induction cs as [|[i source] cs IH]; intros s st Hrun;
    cbn [runCombos] in Hrun.
  - injection Hrun as _ <-. unfold expectedCalls. cbn. rewrite app_nil_r. reflexivity.
  - destruct (attempt true i source s st) as [[s1 st1] r1] eqn:Hatt.
    destruct r1; try discriminate Hrun.
    pose proof (attempt_descriptors _ _ _ _ _ _ _ _ Hatt) as Hd.
    rewrite (IH _ _ Hrun), Hd. unfold expectedCalls at 2. cbn [flat_map fst snd].
    fold (expectedCalls s.*1 cs). rewrite (assoc_L (++)). f_equal.
    unfold attempt in Hatt. unfold structure in *. rewrite list_lookup_fmap.
    destruct (s !! i) as [[field property]|]; [|discriminate Hatt]. cbn [fmap option_fmap option_map fst].
    destruct (assoc (Tag source) (sfTag field)) as [key|].
    + cbn [andb] in Hatt. destruct (sfExported field); cbn [negb] in Hatt.
      * destruct (Get source key) as [v [e|]]; [discriminate Hatt|].
        destruct (length (values_ v) =? 0)%nat; [injection Hatt as _ <- ; reflexivity|].
        destruct (setValue _ _ _ _) as [[h new] r0].
        destruct r0; try discriminate Hatt. injection Hatt as _ <-. reflexivity.
      * injection Hatt as _ <-. rewrite app_nil_r. reflexivity.
    + injection Hatt as _ <-. destruct (sfExported field); rewrite app_nil_r; reflexivity.
Qed.

(** X15. On a successful [To] through a pointer, the resolvers have been
    called exactly once for each field/source combination whose field is
    exported and has a key for the source, with that key, in the order
    of the loops (fields, then sources); no other call is made. *)
Theorem X15_resolver_calls_on_success (sources : Sources) (depth : nat)
  (s : structure) (st : state) (obj' : object) (st' : state) :
  To sources (Some (pointerTo (S depth) s)) st = (obj', st', Nil) ->
  calls st' = calls st ++ expectedCalls s.*1 (combos (length s) sources).
Proof.
  intros HTo. rewrite To_runCombos in HTo.
  change (0 <? S depth)%nat with true in HTo.
  destruct (runCombos true _ s st) as [[s' st0] r] eqn:Hrun.
  injection HTo as _ <- ->. exact (runCombos_calls _ _ _ _ _ Hrun).
Qed.

Lemma target_shape :
  forall t : target,
    (exists depth s, t = pointerTo depth s)
    \/ (forall sources addressable st,
          exists msg, (fill sources addressable t st).2 = Panic msg).
Proof.
  fix IH 1. intros [s|[p|]|k].
  - left. exists 0%nat, s. reflexivity.
  - destruct (IH p) as [(depth & s & ->)|Hp].
    + left. exists (S depth), s. reflexivity.
    + right. intros sources addressable st. cbn [fill].
      destruct (Hp sources true st) as [msg Hmsg].
      destruct (fill sources true p st) as [[p' st'] r]. cbn [snd] in *. eauto.
  - right. intros sources addressable st. cbn. eauto.
  - right. intros sources addressable st. cbn. eauto.
Qed.

(** X16. With at least one source, [To] on a non-nil destination returns
    (with [nil] or an error) exactly when the destination is a struct or
    leads to one through pointers; on a nil pointer or a value of another
    kind it panics. *)
Theorem X16_To_returns_iff_struct (sources : Sources) (valueOf : target)
  (st : state) :
  sources <> [] ->
  returns (To sources (Some valueOf) st).2
  <-> exists depth s, valueOf = pointerTo depth s.
Proof.
  intros Hne. split.
  - intros Hret. destruct (target_shape valueOf) as [Hs|Hp]; [exact Hs|].
    exfalso. unfold To in Hret. destruct sources as [|source sources]; [contradiction|].
    cbn [length Nat.eqb] in Hret.
    destruct (Hp (source :: sources) false st) as [msg Hmsg].
    destruct (fill (source :: sources) false valueOf st) as [[v' st'] r].
    cbn [snd] in *. subst r. exact Hret.
  - intros (depth & s & ->). apply To_returns.
Qed.

End DriverOrder.

Section MoreExtras.
Context `{GoLib}.

Lemma attempt_no_values addressable i source (s : structure) st :
  (i < length s)%nat ->
  (forall key, (Get source key).2 = None /\ values_ (Get source key).1 = []) ->
  exists st', attempt addressable i source s st = (s, st', Nil)
              /\ cells st' = cells st.
Proof.
  intros Hi Hget. unfold attempt.
  destruct (s !! i) as [[field property]|] eqn:Hl;
    [|apply lookup_ge_None in Hl; lia].
  destruct (assoc (Tag source) (sfTag field)) as [key|]; [|eauto].
  destruct (negb (addressable && sfExported field)); [eauto|].
  destruct (Hget key) as [Herr Hvals].
  destruct (Get source key) as [v err]. cbn [fst snd] in *. subst err.
  rewrite Hvals. cbn [length Nat.eqb]. eauto.
Qed.

Lemma runCombos_no_values addressable cs (s : structure) st :
  Forall (fun c : nat * Source =>
            (c.1 < length s)%nat
            /\ forall key, (Get c.2 key).2 = None /\ values_ (Get c.2 key).1 = []) cs ->
  exists st', runCombos addressable cs s st = (s, st', Nil) /\ cells st' = cells st.
Proof.
  intros Hcs. revert st. induction Hcs as [|[i source] cs [Hi Hget] _ IH]; intros st.
  - exists st. split; reflexivity.
  - cbn [runCombos].
    destruct (attempt_no_values addressable i source s st Hi Hget) as (st1 & -> & Hc1).
    destruct (IH st1) as (st' & -> & Hc'). exists st'. split; [reflexivity|congruence].
Qed.

(** X17. Sources that have nothing to say change nothing: when every
    resolver returns no error and no string (a [nil] [Valuer] or an empty
    one) for every key, [To] returns [nil] and the destination and the
    heap are as before; a field is never reset for lack of a value. *)
Theorem X17_no_values_no_change (sources : Sources) (depth : nat) (s : structure)
  (st : state) :
  Forall (fun source =>
            forall key, (Get source key).2 = None
                        /\ values_ (Get source key).1 = []) sources ->
  exists st',
    To sources (Some (pointerTo depth s)) st = (Some (pointerTo depth s), st', Nil)
    /\ cells st' = cells st.
Proof.
  intros Hsrc. rewrite To_runCombos.
  destruct (runCombos_no_values (0 <? depth)%nat (combos (length s) sources) s st)
    as (st' & -> & Hc).
  - apply Forall_forall. intros [i source] Hin.
    apply list_elem_of_In, combos_source in Hin as [Hi Hs]. split; [exact Hi|].
    rewrite Forall_forall in Hsrc. apply Hsrc. apply list_elem_of_In. exact Hs.
  - exists st'. split; [reflexivity|exact Hc].
Qed.

(** X18. Round trip through a pointer: a pointer-to-integer field given
    the decimal rendering of an integer that fits the pointed-to type
    points afterwards to one new cell holding exactly that integer. *)
Theorem X18_pointer_to_integer_round_trip (t : rtype) (n : Z) (old : value)
  (rest : list string) (h : heap) :
  representable t n ->
  setValue (TPtr t) old (FormatInt n :: rest) h =
  (h ++ [integerValue t n], VPtr (Some (length h)), Nil).
Proof.
  intros Hn.
  change (setValue (TPtr t) old (FormatInt n :: rest) h)
    with (setPointer (setValue t) t (FormatInt n :: rest) h).
  unfold setPointer. rewrite (integer_round_trip t n (zero t) rest _ Hn).
  rewrite <- (app_nil_r (h ++ [zero t])).
  rewrite (insert_fresh_cell h [] (zero t) (integerValue t n)), app_nil_r.
  reflexivity.
Qed.

End MoreExtras.

(** ** The further properties at concrete inputs *)

Lemma X3_witness :
  setValue (TSlice (TInt KInt)) (VSlice (Some [VInt 1])) ["invalid"; "value"] [] =
    ([], VSlice (Some [VInt 1]), Err (NumError "ParseInt" "invalid" ErrSyntax))
  /\ VSlice (Some [VInt 1]) = VSlice (Some [VInt 1]).
Proof.
  split; [reflexivity|].
  apply (X3_failure_leaves_non_pointer_field (TSlice (TInt KInt))
           (VSlice (Some [VInt 1])) (VSlice (Some [VInt 1])) ["invalid"; "value"] [] []
           (Err (NumError "ParseInt" "invalid" ErrSyntax)));
    [reflexivity|reflexivity|discriminate].
Defined.

Lemma X6_witness :
  isASCII "AB"
  /\ setValue (TSlice (TUint KUint8)) (VSlice None) ["AB"] [] =
     ([], VSlice (Some [VUint 65; VUint 66]), Nil).
Proof.
  assert (Ha : isASCII "AB").
  { repeat constructor; vm_compute; reflexivity. }
  split; [exact Ha|].
  exact (X6_ascii_bytes (VSlice None) "AB" [] [] Ha).
Defined.

Lemma X7_witness :
  let old := VSlice (Some [VInt 1]) in
  setValue (TSlice (TInt KInt)) old ["5"; "x"; "y"] [] =
    ([], old, Err (NumError "ParseInt" "x" ErrSyntax))
  /\ exists pre s post h1 vs1 v,
       ["5"; "x"; "y"] = pre ++ s :: post
       /\ setSliceLoop (setValue (TInt KInt)) (TInt KInt) pre [] = (h1, vs1, Nil)
       /\ setValue (TInt KInt) (zero (TInt KInt)) [s] h1 =
          ([], v, Err (NumError "ParseInt" "x" ErrSyntax)).
Proof.
  intros old. split; [reflexivity|].
  apply (X7_sequence_first_failing_element (TInt KInt) old old ["5"; "x"; "y"] [] []
           (NumError "ParseInt" "x" ErrSyntax)); [discriminate|reflexivity].
Defined.

Lemma X8_witness :
  exists e, setValue TDuration (VInt 7) [FormatInt 90] [] = ([], VInt 7, Err e).
Proof.
  apply (X8_duration_rejects_plain_integers 90 (VInt 7) [] []). discriminate.
Defined.

Lemma X9_witness :
  setValue (TSlice (TInt KInt16)) (VSlice None) (map FormatInt [-32768; 0; 32767]) [] =
  ([], VSlice (Some (map (integerValue (TInt KInt16)) [-32768; 0; 32767])), Nil).
Proof.
  apply (X9_integer_sequence_round_trip (TInt KInt16) [-32768; 0; 32767]
           (VSlice None) []); [discriminate|].
  repeat constructor; cbn; lia.
Defined.

Lemma X13_witness :
  let foo := mkSource "foo" (fun _ => (Value ["new"], None)) in
  let hidden := mkField "hidden" TString [("foo", "h")] false in
  let other := mkField "Other" TString [("bar", "o")] true in
  let s := [(hidden, VString "a"); (other, VString "b")] in
  (exists s', (To [foo] (Some (pointerTo 1 s)) (mkState [] [])).1.1 =
                Some (pointerTo 1 s')
              /\ s' !! 0%nat = Some (hidden, VString "a"))
  /\ (exists s', (To [foo] (Some (pointerTo 1 s)) (mkState [] [])).1.1 =
                   Some (pointerTo 1 s')
                 /\ s' !! 1%nat = Some (other, VString "b")).
Proof.
  intros foo hidden other s. split.
  - apply (X13_ineligible_field_untouched [foo] 1 s (mkState [] []) 0 hidden
             (VString "a")); [reflexivity|left; reflexivity].
  - apply (X13_ineligible_field_untouched [foo] 1 s (mkState [] []) 1 other
             (VString "b")); [reflexivity|right].
    repeat constructor.
Defined.

Lemma X14_witness :
  let first := mkSource "query" (fun _ => (Value ["from query"], None)) in
  let second := mkSource "header" (fun _ => (Value ["from header"], None)) in
  let field := mkField "Name" TString [("header", "X-Name"); ("query", "name")] true in
  let s := [(field, VString "initial")] in
  exists s',
    Some (pointerTo 1 [(field, VString "from header")]) = Some (pointerTo 1 s')
    /\ s' !! 0%nat = Some (field, VString "from header").
Proof.
  intros first second field s.
  apply (X14_last_source_wins [first; second] 0 s (mkState [] [])
           (Some (pointerTo 1 [(field, VString "from header")]))
           (mkState [] [("query", "name"); ("header", "X-Name")]) 0 field
           (VString "initial")); reflexivity.
Defined.

Lemma X15_witness :
  let first := mkSource "query" (fun _ => (Value ["q"], None)) in
  let second := mkSource "header" (fun _ => (None, None)) in
  let a := mkField "A" TString [("header", "X-A"); ("query", "a")] true in
  let b := mkField "b" TString [("query", "b")] false in
  let c := mkField "C" TString [("header", "X-C")] true in
  let s := [(a, VString EmptyString); (b, VString EmptyString); (c, VString EmptyString)] in
  [("query", "a"); ("header", "X-A"); ("header", "X-C")] =
  [] ++ expectedCalls s.*1 (combos (length s) [first; second]).
Proof.
  intros first second a b c s.
  apply (X15_resolver_calls_on_success [first; second] 0 s (mkState [] [])
           (Some (pointerTo 1 [(a, VString "q"); (b, VString EmptyString);
                               (c, VString EmptyString)]))
           (mkState [] [("query", "a"); ("header", "X-A"); ("header", "X-C")])).
  reflexivity.
Defined.

Lemma X16_witness :
  let source := mkSource "foo" (fun _ => (Value ["x"], None)) in
  [source] <> []
  /\ (returns (To [source] (Some (ONonStruct reflect.Int)) (mkState [] [])).2
      <-> exists depth s, ONonStruct reflect.Int = pointerTo depth s).
Proof.
  intros source. assert (Hne : [source] <> []) by discriminate.
  split; [exact Hne|].
  exact (X16_To_returns_iff_struct [source] (ONonStruct reflect.Int) (mkState [] []) Hne).
Defined.

Lemma X17_witness :
  let source := mkSource "foo" (fun _ => (None, None)) in
  let field := mkField "String" TString [("foo", "bar")] true in
  let s := [(field, VString "hello world")] in
  exists st',
    To [source] (Some (pointerTo 1 s)) (mkState [] []) = (Some (pointerTo 1 s), st', Nil)
    /\ cells st' = cells (mkState [] []).
Proof.
  intros source field s.
  apply (X17_no_values_no_change [source] 1 s (mkState [] [])).
  repeat constructor.
Defined.

Lemma X18_witness :
  representable (TUint KUint16) 65535
  /\ setValue (TPtr (TUint KUint16)) (VPtr None) [FormatInt 65535] [] =
     ([] ++ [integerValue (TUint KUint16) 65535], VPtr (Some (length ([] : heap))), Nil).
Proof.
  assert (Hr : representable (TUint KUint16) 65535) by (cbn; lia).
  split; [exact Hr|].
  exact (X18_pointer_to_integer_round_trip (TUint KUint16) 65535 (VPtr None) [] [] Hr).
Defined.
